(** * vLLMClient: adaptive multi-response querying, usage accounting, caching

    A shallow embedding of
    [src/graph_of_thoughts/language_models/vllm_client.py]
    (class [vLLMClient]: methods [query], [chat] and [get_response_texts]).

    - Python [int] is [Z]; Python [float] is IEEE binary64, i.e. Rocq's
      primitive [float]; [str] is [string]; the [response_cache] dict is a
      [gmap string _].
    - The OpenAI client, the wall clock, [time.sleep] and [random.randint]
      form the environment: an abstract world [W] with the operations of
      class [Client].  The adapter's own fields and the world are threaded
      explicitly through every method.
    - Python exceptions are values of [exn]; a method returns
      [result A * State], the state being the one reached when the method
      returned or raised.
    - Responses are immutable values here.  In Python the cache holds the
      very list [query] returns; nothing in the client writes to a list
      once it is returned, so equal values is what the sharing amounts
      to. *)

From Stdlib Require Import ZArith Floats Lia.
From stdpp Require Import gmap strings list.

Local Open Scope Z_scope.

(** ** Exceptions *)

(** The exceptions that matter to the client.  All four are subclasses of
    Python's [Exception], hence all are caught by [except Exception]; only
    [OpenAIError] is retried by the [backoff] decorator of [chat]. *)
Inductive exn : Set :=
| OpenAIError (msg : string)
| AssertionError
| OverflowError
| OtherException (msg : string).

Definition is_OpenAIError (e : exn) : bool :=
  match e with
  | OpenAIError _ => true
  | _ => false
  end.

Definition result (A : Type) : Type := (exn + A)%type.

Definition is_ok {A : Type} (r : result A) : bool :=
  match r with
  | inr _ => true
  | inl _ => false
  end.

(** ** Data exchanged with the server (openai.types.chat) *)

Record ChatCompletionMessage : Set := { content : string }.

Record Choice : Set := { message : ChatCompletionMessage }.

Record CompletionUsage : Set :=
  { usage_prompt_tokens : Z; usage_completion_tokens : Z }.

(** [usage] is [None] when the response carries no usage data
    ([hasattr(response, 'usage') and response.usage] is false). *)
Record ChatCompletion : Set :=
  { choices : list Choice; usage : option CompletionUsage }.

(** [Union[List[ChatCompletion], ChatCompletion]]: what [query] returns and
    what [get_response_texts] consumes. *)
Inductive QueryResponse : Set :=
| Single (r : ChatCompletion)
| Many (rs : list ChatCompletion).

Record Message : Set := { role : string; msg_content : string }.

Inductive Stop : Set :=
| StopStr (s : string)
| StopList (l : list string).

(** Keyword arguments of [client.chat.completions.create]. *)
Record Request : Set :=
  { req_model : string;
    req_messages : list Message;
    req_temperature : float;
    req_max_tokens : Z;
    req_n : Z;
    req_stop : option Stop }.

(** ** The environment *)

(** [create] is [self.client.chat.completions.create]: it either raises or
    returns a completion, and moves the world.  [clock] reads the wall
    clock in microseconds; [backoff_sleep] is the jittered exponential
    pause the [backoff] library takes before a retry;
    [sleep_randint a b] is [time.sleep(random.randint(a, b))]. *)
Class Client (W : Type) : Type :=
  { create : Request -> W -> result ChatCompletion * W;
    clock : W -> Z;
    backoff_sleep : W -> W;
    sleep_randint : Z -> Z -> W -> W }.

(** ** The adapter's state *)

(** The fields [__init__] reads from the configuration and [chat] uses. *)
Record Config : Set :=
  { model_id : string;
    prompt_token_cost : float;
    response_token_cost : float;
    temperature : float;
    max_tokens : Z;
    stop : option Stop }.

(** What [self.logger] has been given: [info] by [chat], [warning] by the
    exception handler of [query]. *)
Inductive LogRecord : Set :=
| LogInfo (response : ChatCompletion) (cost_estimate : float)
| LogWarning (e : exn) (next_try_samples : Z).

Definition is_warning (l : LogRecord) : bool :=
  match l with
  | LogWarning _ _ => true
  | LogInfo _ _ => false
  end.

Definition is_info (l : LogRecord) : bool := negb (is_warning l).

(** One invocation of [create], with its outcome. *)
Record Call : Set := { call_request : Request; call_ok : bool }.

(** [calls] is a ghost field: the history of the invocations of
    [self.client.chat.completions.create], oldest first.  It is the only
    field the Python object does not have; the code never reads it. *)
Record State (W : Type) : Type :=
  { config : Config;
    cache : bool;
    response_cache : gmap string QueryResponse;
    prompt_tokens : Z;
    completion_tokens : Z;
    cost : float;
    logger : list LogRecord;
    calls : list Call;
    env : W }.

Arguments config {W} _.
Arguments cache {W} _.
Arguments response_cache {W} _.
Arguments prompt_tokens {W} _.
Arguments completion_tokens {W} _.
Arguments cost {W} _.
Arguments logger {W} _.
Arguments calls {W} _.
Arguments env {W} _.

(** The local variables of the [while] loop of [query]. *)
Record Loop : Set :=
  { response : list ChatCompletion;
    num_responses : Z;
    next_try : Z;
    total_num_attempts : Z }.

(** ** Python's [float(n)] *)

(** The binary64 nearest to [n], ties to even; [None] stands for the
    [OverflowError] Python raises when [n] is too large for a float. *)
Definition float_of_int (n : Z) : option float :=
  let f := SF2Prim (binary_normalize 53 1024 n 0 false) in
  if PrimFloat.is_infinity f then None else Some f.

(** The literal [1000.0]. *)
Definition f1000 : float := 1000%float.

(** Lines 136-141: the cost recomputed from the two counters. *)
Definition cost_formula (cfg : Config) (pf cf : float) : float :=
  (prompt_token_cost cfg * (pf / f1000)
   + response_token_cost cfg * (cf / f1000))%float.

Section Adapter.
Context {W : Type} `{Client W}.

(** *** Field updates *)

Definition set_env (w : W) (s : State W) : State W :=
  {| config := config s; cache := cache s;
     response_cache := response_cache s;
     prompt_tokens := prompt_tokens s;
     completion_tokens := completion_tokens s;
     cost := cost s; logger := logger s; calls := calls s; env := w |}.

Definition record_call (c : Call) (s : State W) : State W :=
  {| config := config s; cache := cache s;
     response_cache := response_cache s;
     prompt_tokens := prompt_tokens s;
     completion_tokens := completion_tokens s;
     cost := cost s; logger := logger s; calls := calls s ++ [c];
     env := env s |}.

Definition log (l : LogRecord) (s : State W) : State W :=
  {| config := config s; cache := cache s;
     response_cache := response_cache s;
     prompt_tokens := prompt_tokens s;
     completion_tokens := completion_tokens s;
     cost := cost s; logger := logger s ++ [l]; calls := calls s;
     env := env s |}.

Definition add_tokens (u : CompletionUsage) (s : State W) : State W :=
  {| config := config s; cache := cache s;
     response_cache := response_cache s;
     prompt_tokens := prompt_tokens s + usage_prompt_tokens u;
     completion_tokens := completion_tokens s + usage_completion_tokens u;
     cost := cost s; logger := logger s; calls := calls s;
     env := env s |}.

Definition set_cost (c : float) (s : State W) : State W :=
  {| config := config s; cache := cache s;
     response_cache := response_cache s;
     prompt_tokens := prompt_tokens s;
     completion_tokens := completion_tokens s;
     cost := c; logger := logger s; calls := calls s; env := env s |}.

Definition cache_store (q : string) (r : QueryResponse) (s : State W)
  : State W :=
  {| config := config s; cache := cache s;
     response_cache := <[q := r]> (response_cache s);
     prompt_tokens := prompt_tokens s;
     completion_tokens := completion_tokens s;
     cost := cost s; logger := logger s; calls := calls s;
     env := env s |}.

(** *** [chat] (lines 110-147) *)

Definition chat_request (s : State W) (messages : list Message) (n : Z)
  : Request :=
  {| req_model := model_id (config s);
     req_messages := messages;
     req_temperature := temperature (config s);
     req_max_tokens := max_tokens (config s);
     req_n := n;
     req_stop := stop (config s) |}.

(** Lines 133-141.  The two counters are updated before the conversions
    to float, so an [OverflowError] leaves them updated and [cost] not. *)
Definition update_usage (response : ChatCompletion) (s : State W)
  : result unit * State W :=
  match usage response with
  | Some u =>
      let s1 := add_tokens u s in
      match float_of_int (prompt_tokens s1),
            float_of_int (completion_tokens s1) with
      | Some pf, Some cf =>
          (inr tt, set_cost (cost_formula (config s1) pf cf) s1)
      | _, _ => (inl OverflowError, s1)
      end
  | None => (inr tt, s)
  end.

(** The body of [chat], without its decorator. *)
Definition chat_body (messages : list Message) (n : Z) (s : State W)
  : result ChatCompletion * State W :=
  let req := chat_request s messages n in
  match create req (env s) with
  | (inl e, w) =>
      (inl e, record_call {| call_request := req; call_ok := false |}
                (set_env w s))
  | (inr response, w) =>
      let s1 := record_call {| call_request := req; call_ok := true |}
                  (set_env w s) in
      match update_usage response s1 with
      | (inl e, s2) => (inl e, s2)
      | (inr _, s2) => (inr response, log (LogInfo response (cost s2)) s2)
      end
  end.

(** [backoff.on_exception(backoff.expo, OpenAIError, max_time, max_tries)],
    the decorator of the third-party [backoff] package:
    the target is called again after an [OpenAIError] unless the number
    of tries has reached [max_tries] or the time elapsed when the try
    began has reached [max_time]; any other exception, and the last
    [OpenAIError], is re-raised.  [retries] is the number of tries still
    allowed after the current one. *)
Fixpoint retry_exception {A : Type} (retries : nat) (max_time start : Z)
    (target : State W -> result A * State W) (s : State W)
  : result A * State W :=
  let elapsed := clock (env s) - start in
  match target s with
  | (inr ret, s1) => (inr ret, s1)
  | (inl e, s1) =>
      if is_OpenAIError e then
        match retries with
        | O => (inl e, s1)
        | S k =>
            if max_time <=? elapsed then (inl e, s1)
            else retry_exception k max_time start target
                   (set_env (backoff_sleep (env s1)) s1)
        end
      else (inl e, s1)
  end.

Definition max_tries : nat := 6.

(** [max_time=10] seconds, in the unit of [clock]. *)
Definition max_time : Z := 10 * 1000000.

Definition chat (messages : list Message) (n : Z) (s : State W)
  : result ChatCompletion * State W :=
  retry_exception (Nat.pred max_tries) max_time (clock (env s))
    (chat_body messages n) s.

(** *** [query] (lines 69-108) *)

Definition user_message (q : string) : list Message :=
  [{| role := "user"; msg_content := q |}].

(** Lines 92-94: the [assert] and the call it guards. *)
Definition attempt (q : string) (ls : Loop) (s : State W)
  : result ChatCompletion * State W :=
  if 0 <? next_try ls then chat (user_message q) (next_try ls) s
  else (inl AssertionError, s).

(** Lines 92-104: one iteration of the loop. *)
Definition loop_body (q : string) (ls : Loop) (s : State W)
  : Loop * State W :=
  match attempt q ls s with
  | (inr res, s1) =>
      let remaining := num_responses ls - next_try ls in
      ({| response := response ls ++ [res];
          num_responses := remaining;
          next_try := Z.min remaining (next_try ls);
          total_num_attempts := total_num_attempts ls |}, s1)
  | (inl e, s1) =>
      let halved := (next_try ls + 1) / 2 in
      ({| response := response ls;
          num_responses := num_responses ls;
          next_try := halved;
          total_num_attempts := total_num_attempts ls - 1 |},
       set_env (sleep_randint 1 3 (env s1)) (log (LogWarning e halved) s1))
  end.

(** Line 91. *)
Definition loop_cond (ls : Loop) : bool :=
  (0 <? num_responses ls) && (0 <? total_num_attempts ls).

(** The [while] loop; [None] when [fuel] iterations were not enough. *)
Fixpoint while_loop (fuel : nat) (q : string) (ls : Loop) (s : State W)
  : option (Loop * State W) :=
  if loop_cond ls then
    match fuel with
    | O => None
    | S k => let '(ls1, s1) := loop_body q ls s in while_loop k q ls1 s1
    end
  else Some (ls, s).

(** Lines 88-90. *)
Definition loop_init (n : Z) : Loop :=
  {| response := []; num_responses := n; next_try := n;
     total_num_attempts := n |}.

(** Every iteration lowers [num_responses] or [total_num_attempts] by at
    least one, so this many iterations are enough ([query_total]). *)
Definition loop_fuel (ls : Loop) : nat :=
  (Z.to_nat (num_responses ls) + Z.to_nat (total_num_attempts ls))%nat.

(** Line 82: [self.cache and query in self.response_cache]. *)
Definition cache_lookup (q : string) (s : State W) : option QueryResponse :=
  if cache s then response_cache s !! q else None.

(** Lines 106-107. *)
Definition cache_update (q : string) (r : QueryResponse) (s : State W)
  : State W :=
  if cache s then cache_store q r s else s.

(** [query]; the outer [option] is [None] only if the loop ran out of
    fuel, which [query_total] excludes. *)
Definition query (q : string) (n : Z) (s : State W)
  : option (result QueryResponse * State W) :=
  match cache_lookup q s with
  | Some r => Some (inr r, s)
  | None =>
      if n =? 1 then
        match chat (user_message q) n s with
        | (inl e, s1) => Some (inl e, s1)
        | (inr res, s1) =>
            Some (inr (Single res), cache_update q (Single res) s1)
        end
      else
        match while_loop (loop_fuel (loop_init n)) q (loop_init n) s with
        | Some (ls, s1) =>
            Some (inr (Many (response ls)),
                  cache_update q (Many (response ls)) s1)
        | None => None
        end
  end.

End Adapter.

(** *** [get_response_texts] (lines 149-167) *)

Definition get_response_texts (query_response : QueryResponse) : list string :=
  match query_response with
  | Many rs =>
      flat_map (fun r => map (fun c => content (message c)) (choices r)) rs
  | Single r => map (fun c => content (message c)) (choices r)
  end.

(** ** Observations used to state the properties *)

(** [ceil(a / 2)], as the specification writes the halving. *)
Definition ceil_half (a : Z) : Z := - ((- a) / 2).

(** The single response or the sequence of responses, as a sequence. *)
Definition responses_of (query_response : QueryResponse)
  : list ChatCompletion :=
  match query_response with
  | Single r => [r]
  | Many rs => rs
  end.

(** Number of choices carried by a sequence of responses. *)
Definition total_choices (rs : list ChatCompletion) : nat :=
  sum_list (map (fun r => length (choices r)) rs).

(** Failed attempts of the adaptive loop: each one leaves exactly one
    warning in the log (line 100). *)
Definition failed_attempts (l : list LogRecord) : nat :=
  length (List.filter is_warning l).

(** Completed [chat] calls: each one leaves exactly one info record in the
    log (line 143). *)
Definition successful_chats (l : list LogRecord) : nat :=
  length (List.filter is_info l).

Definition failed_calls (l : list Call) : nat :=
  length (List.filter (fun c => negb (call_ok c)) l).

Definition successful_calls (l : list Call) : nat :=
  length (List.filter call_ok l).

Definition usage_prompt_sum (rs : list ChatCompletion) : Z :=
  foldr (fun r acc =>
           match usage r with
           | Some u => usage_prompt_tokens u + acc
           | None => acc
           end) 0 rs.

Definition usage_completion_sum (rs : list ChatCompletion) : Z :=
  foldr (fun r acc =>
           match usage r with
           | Some u => usage_completion_tokens u + acc
           | None => acc
           end) 0 rs.

Section Observations.
Context {W : Type} `{Client W}.

(** The states the loop of [query] goes through: one guarded iteration
    after the other. *)
Inductive loop_reaches (q : string)
  : Loop * State W -> Loop * State W -> Prop :=
| reaches_refl x : loop_reaches q x x
| reaches_step ls s y :
    loop_cond ls = true ->
    loop_reaches q (loop_body q ls s) y ->
    loop_reaches q (ls, s) y.

(** What each iteration of the loop did: the batch size it asked for,
    whether the attempt succeeded, and the batch size and the number of
    responses still wanted afterwards. *)
Record AttemptRecord : Set :=
  { asked : Z; succeeded : bool; next_size : Z; remaining : Z }.

Fixpoint attempts_trace (fuel : nat) (q : string) (ls : Loop) (s : State W)
  : list AttemptRecord :=
  match fuel with
  | O => []
  | S k =>
      if loop_cond ls then
        let '(ls1, s1) := loop_body q ls s in
        {| asked := next_try ls;
           succeeded := is_ok (fst (attempt q ls s));
           next_size := next_try ls1;
           remaining := num_responses ls1 |}
          :: attempts_trace k q ls1 s1
      else []
  end.

(** [n] calls of [chat] in a row, all of which return. *)
Fixpoint chat_all (reqs : list (list Message * Z)) (s : State W)
  : option (list ChatCompletion * State W) :=
  match reqs with
  | [] => Some ([], s)
  | (messages, n) :: rest =>
      match chat messages n s with
      | (inr r, s1) =>
          match chat_all rest s1 with
          | Some (rs, s2) => Some (r :: rs, s2)
          | None => None
          end
      | (inl _, _) => None
      end
  end.

(** The effect of one returned [chat] on the usage counters. *)
Definition usage_post (s : State W) (r : ChatCompletion) (s' : State W)
  : Prop :=
  match usage r with
  | Some u =>
      prompt_tokens s' = prompt_tokens s + usage_prompt_tokens u /\
      completion_tokens s' = completion_tokens s + usage_completion_tokens u /\
      exists pf cf,
        float_of_int (prompt_tokens s') = Some pf /\
        float_of_int (completion_tokens s') = Some cf /\
        cost s' =
          (prompt_token_cost (config s') * (pf / 1000)
           + response_token_cost (config s') * (cf / 1000))%float
  | None =>
      prompt_tokens s' = prompt_tokens s /\
      completion_tokens s' = completion_tokens s /\
      cost s' = cost s
  end.

(** The fields no method but [query]'s cache write and [chat]'s usage
    update touches. *)
Definition same_settings (s s' : State W) : Prop :=
  config s' = config s /\ cache s' = cache s /\
  response_cache s' = response_cache s.

Definition same_usage (s s' : State W) : Prop :=
  prompt_tokens s' = prompt_tokens s /\
  completion_tokens s' = completion_tokens s /\
  cost s' = cost s.

Definition failed_call (s : State W) (messages : list Message) (n : Z)
  : Call :=
  {| call_request := chat_request s messages n; call_ok := false |}.

Definition served_call (s : State W) (messages : list Message) (n : Z)
  : Call :=
  {| call_request := chat_request s messages n; call_ok := true |}.

(** What a run of [chat] that made [k] failed calls before its last one
    leaves behind. *)
Definition chat_post (messages : list Message) (n : Z) (s : State W)
    (k : nat) (res : result ChatCompletion) (s' : State W) : Prop :=
  same_settings s s' /\
  match res with
  | inr r =>
      calls s' = calls s ++ repeat (failed_call s messages n) k
                         ++ [served_call s messages n] /\
      logger s' = logger s ++ [LogInfo r (cost s')] /\
      usage_post s r s'
  | inl e =>
      logger s' = logger s /\
      ((calls s' = calls s ++ repeat (failed_call s messages n) (S k) /\
        same_usage s s') \/
       (e = OverflowError /\
        calls s' = calls s ++ repeat (failed_call s messages n) k
                           ++ [served_call s messages n]))
  end.

(** What holds at the head of the loop that [query q count] started in
    state [s0]. *)
Definition loop_inv (count : Z) (s0 : State W) (ls : Loop) (s : State W)
  : Prop :=
  0 <= num_responses ls /\
  0 <= total_num_attempts ls <= count /\
  next_try ls <= num_responses ls /\
  (0 < num_responses ls -> 1 <= next_try ls) /\
  next_try ls <= count /\
  Z.of_nat (failed_attempts (logger s))
    = Z.of_nat (failed_attempts (logger s0))
      + (count - total_num_attempts ls) /\
  successful_chats (logger s)
    = (successful_chats (logger s0) + length (response ls))%nat /\
  same_settings s0 s /\
  exists l, calls s = calls s0 ++ l /\
            Forall (fun c => 1 <= req_n (call_request c) <= count) l.

(** The usage counters along a run of returned [chat] calls: each
    response moves them as [usage_post] says. *)
Inductive usage_chain : State W -> list ChatCompletion -> State W -> Prop :=
| usage_chain_nil s : usage_chain s [] s
| usage_chain_cons s r s1 rs s2 :
    usage_post s r s1 -> usage_chain s1 rs s2 ->
    usage_chain s (r :: rs) s2.

End Observations.

(** ** Transport stubs *)

(** The stubs of the specification's scenarios.  A stub raises on every
    request for more than [limit] choices and otherwise returns exactly the
    number of choices asked for; [openai_errors] chooses between an
    [OpenAIError] (retried by [backoff]) and another exception;
    [now] is its clock. *)
Record Stub : Set :=
  { limit : Z; openai_errors : bool; reports_usage : bool; now : Z }.

Definition stub_choice : Choice :=
  {| message := {| content := "[1, 2, 3]" |} |}.

Definition stub_error (w : Stub) : exn :=
  if openai_errors w then OpenAIError "too many samples"
  else OtherException "too many samples".

Definition stub_completion (w : Stub) (n : Z) : ChatCompletion :=
  {| choices := repeat stub_choice (Z.to_nat n);
     usage :=
       if reports_usage w
       then Some {| usage_prompt_tokens := 12;
                    usage_completion_tokens := 7 * n |}
       else None |}.

Definition stub_create (req : Request) (w : Stub)
  : result ChatCompletion * Stub :=
  if limit w <? req_n req then (inl (stub_error w), w)
  else (inr (stub_completion w (req_n req)), w).

Definition stub_advance (seconds : Z) (w : Stub) : Stub :=
  {| limit := limit w; openai_errors := openai_errors w;
     reports_usage := reports_usage w;
     now := now w + seconds * 1000000 |}.

#[export] Instance stub_client : Client Stub :=
  {| create := stub_create;
     clock := now;
     backoff_sleep := stub_advance 1;
     sleep_randint := fun a _ => stub_advance a |}.

Definition stub_config : Config :=
  {| model_id := "vllm";
     prompt_token_cost := 0.5%float;
     response_token_cost := 1.5%float;
     temperature := 0.5%float;
     max_tokens := 512;
     stop := None |}.

(** A freshly built adapter in front of the stub [w]. *)
Definition stub_state (cache_enabled : bool) (w : Stub) : State Stub :=
  {| config := stub_config;
     cache := cache_enabled;
     response_cache := ∅;
     prompt_tokens := 0;
     completion_tokens := 0;
     cost := 0%float;
     logger := [];
     calls := [];
     env := w |}.

(** Fails on every batch above two choices. *)
Definition flaky (openai reports : bool) : Stub :=
  {| limit := 2; openai_errors := openai; reports_usage := reports;
     now := 0 |}.

(** Fails on every request for at least one choice. *)
Definition always_failing (openai : bool) : Stub :=
  {| limit := 0; openai_errors := openai; reports_usage := true; now := 0 |}.

(** Serves every batch of at most a thousand choices. *)
Definition healthy : Stub :=
  {| limit := 1000; openai_errors := true; reports_usage := true; now := 0 |}.

(** A transport that refuses every call; its world counts the calls. *)
#[export] Instance refusing_client : Client nat :=
  {| create := fun _ w => (inl (OpenAIError "connection refused"), S w);
     clock := fun _ => 0;
     backoff_sleep := fun w => w;
     sleep_randint := fun _ _ w => w |}.

(** A freshly built adapter in front of the refusing transport. *)
Definition refused_state (cache_enabled : bool) : State nat :=
  {| config := stub_config;
     cache := cache_enabled;
     response_cache := ∅;
     prompt_tokens := 0;
     completion_tokens := 0;
     cost := 0%float;
     logger := [];
     calls := [];
     env := 0%nat |}.

(** ** The scenario of the specification *)

Definition scenario_prompt : string := "sort [3,1,2]".

(** The attempts the specification expects of [query scenario_prompt 5]
    against a stub that fails above two choices. *)
Definition scenario_trace : list AttemptRecord :=
  [ {| asked := 5; succeeded := false; next_size := 3; remaining := 5 |};
    {| asked := 3; succeeded := false; next_size := 2; remaining := 5 |};
    {| asked := 2; succeeded := true; next_size := 2; remaining := 3 |};
    {| asked := 2; succeeded := true; next_size := 1; remaining := 1 |};
    {| asked := 1; succeeded := true; next_size := 0; remaining := 0 |} ].

(** The outcome of the scenario with [failures] failed attempts: the
    attempts are those of [scenario_trace]; [query] returns; its result
    holds five choices; the log shows [failures] failed attempts and three
    completed [chat] calls; three calls to the transport were served. *)
Definition scenario_outcome (failures : nat) (q : string) (s : State Stub)
  : Prop :=
  attempts_trace (loop_fuel (loop_init 5)) q (loop_init 5) s
    = scenario_trace /\
  match query q 5 s with
  | Some (inr r, s') =>
      length (get_response_texts r) = 5%nat /\
      total_choices (responses_of r) = 5%nat /\
      failed_attempts (logger s') = failures /\
      successful_chats (logger s') = 3%nat /\
      successful_calls (calls s') = 3%nat
  | _ => False
  end.

(** The loop of the scenario after its first and after its second
    iteration. *)
Definition scenario_start : Loop * State Stub :=
  (loop_init 5, stub_state true (flaky true true)).

Definition scenario_after_one : Loop * State Stub :=
  loop_body scenario_prompt (fst scenario_start) (snd scenario_start).

Definition scenario_after_two : Loop * State Stub :=
  loop_body scenario_prompt (fst scenario_after_one) (snd scenario_after_one).

(** ** Further observations on the client *)

(** The response reports no negative token count. *)
Definition usage_nonneg (r : ChatCompletion) : Prop :=
  match usage r with
  | Some u => 0 <= usage_prompt_tokens u /\ 0 <= usage_completion_tokens u
  | None => True
  end.

Section Transports.
Context {W : Type} `{Client W}.

(** A transport that serves a request for [n >= 1] choices with exactly
    [n] choices. *)
Definition exact_transport : Prop :=
  forall (req : Request) (w w' : W) (r : ChatCompletion),
    0 < req_n req -> create req w = (inr r, w') ->
    Z.of_nat (length (choices r)) = req_n req.

(** A transport whose responses to requests for [n >= 1] choices report
    no negative usage. *)
Definition nonneg_usage_transport : Prop :=
  forall (req : Request) (w w' : W) (r : ChatCompletion),
    0 < req_n req -> create req w = (inr r, w') -> usage_nonneg r.


(** The token counters of [s'] are at least those of [s]. *)
Definition tokens_le (s s' : State W) : Prop :=
  prompt_tokens s <= prompt_tokens s' /\
  completion_tokens s <= completion_tokens s'.

(** [s'] has the configuration and the cache switch of [s], and the cache
    of [s] except possibly at prompt [q]. *)
Definition cache_frame (q : string) (s s' : State W) : Prop :=
  config s' = config s /\ cache s' = cache s /\
  (cache s = false -> response_cache s' = response_cache s) /\
  forall q', q' <> q -> response_cache s' !! q' = response_cache s !! q'.

End Transports.

(** ** Construction of the client ([__init__], lines 25-67) *)






(** ** The analysis of a run ([analyze_baseline.py]) *)










(** * Properties *)

Lemma ceil_half_spec (a : Z) : a <= 2 * ceil_half a < a + 2.
Proof.
  unfold ceil_half.
  pose proof (Z.div_mod (- a) 2 ltac:(lia)) as Hd.
  pose proof (Z.mod_pos_bound (- a) 2 ltac:(lia)) as Hm.
  lia.
Qed.

(** On a positive batch size the code's [(n + 1) // 2] is the ceiling of
    [n / 2], and the floor of 1 is already met. *)
Lemma halving_is_ceil_half (n : Z) :
  1 <= n -> (n + 1) / 2 = Z.max 1 (ceil_half n).
Proof.
  intros Hn.
  pose proof (ceil_half_spec n) as Hc.
  pose proof (Z.div_mod (n + 1) 2 ltac:(lia)) as Hd.
  pose proof (Z.mod_pos_bound (n + 1) 2 ltac:(lia)) as Hm.
  lia.
Qed.

Lemma halving_bounds (n : Z) : 1 <= n -> 1 <= (n + 1) / 2 <= n.
Proof.
  intros Hn.
  pose proof (Z.div_mod (n + 1) 2 ltac:(lia)) as Hd.
  pose proof (Z.mod_pos_bound (n + 1) 2 ltac:(lia)) as Hm.
  lia.
Qed.

Section ChatFacts.
Context {W : Type} `{Client W}.

Lemma update_usage_ok (r : ChatCompletion) (s s' : State W) :
  update_usage r s = (inr tt, s') ->
  same_settings s s' /\ usage_post s r s' /\
  logger s' = logger s /\ calls s' = calls s /\ env s' = env s.
Proof.
  unfold update_usage, usage_post, same_settings.
  destruct (usage r) as [u|].
  - destruct (float_of_int (prompt_tokens (add_tokens u s))) as [pf|] eqn:Hp;
      [|discriminate].
    destruct (float_of_int (completion_tokens (add_tokens u s))) as [cf|]
      eqn:Hc; [|discriminate].
    intros [= <-]. cbn in *.
    repeat split; try reflexivity.
    exists pf, cf. auto.
  - intros [= <-]. auto 10.
Qed.

Lemma update_usage_raises (r : ChatCompletion) (s s' : State W) (e : exn) :
  update_usage r s = (inl e, s') ->
  e = OverflowError /\ same_settings s s' /\
  logger s' = logger s /\ calls s' = calls s /\ env s' = env s.
Proof.
  unfold update_usage, same_settings.
  destruct (usage r) as [u|]; [|discriminate].
  destruct (float_of_int (prompt_tokens (add_tokens u s))) as [pf|];
    [destruct (float_of_int (completion_tokens (add_tokens u s)))|];
    try discriminate; intros [= <- <-]; cbn; auto 10.
Qed.

Lemma chat_body_post (messages : list Message) (n : Z) (s : State W)
    (res : result ChatCompletion) (s' : State W) :
  chat_body messages n s = (res, s') ->
  chat_post messages n s 0 res s'.
Proof.
  unfold chat_body, chat_post.
  destruct (create (chat_request s messages n) (env s)) as [[e|r] w] eqn:Hc.
  - intros [= <- <-]. cbn. unfold same_settings, same_usage. cbn.
    auto 10.
  - match goal with
    | |- context [update_usage r ?s1] =>
        destruct (update_usage r s1) as [[e|[]] s2] eqn:Hu
    end.
    + apply update_usage_raises in Hu as (-> & Hs & Hl & Hcalls & _).
      intros [= <- <-]. cbn in *.
      split; [exact Hs|]. split; [exact Hl|]. right. auto.
    + apply update_usage_ok in Hu as (Hs & Hu & Hl & Hcalls & _).
      intros [= <- <-]. cbn in *.
      split; [exact Hs|].
      split; [rewrite Hcalls; reflexivity|].
      split; [rewrite Hl; reflexivity|].
      unfold usage_post in *. cbn in *. exact Hu.
Qed.

End ChatFacts.

Section RetryFacts.
Context {W : Type} `{Client W}.

Lemma repeat_snoc {A : Type} (x : A) (k : nat) :
  repeat x k ++ [x] = repeat x (S k).
Proof. symmetry. apply repeat_cons. Qed.

Lemma chat_request_settings (s s1 : State W) (messages : list Message)
    (n : Z) :
  same_settings s s1 -> chat_request s1 messages n = chat_request s messages n.
Proof. intros (Hc & _). unfold chat_request. rewrite Hc. reflexivity. Qed.

(** A try made from a state that differs from [s] by [j] failed calls. *)
Lemma chat_post_after_failures (messages : list Message) (n : Z)
    (s s1 s2 : State W) (j : nat) (res : result ChatCompletion) :
  same_settings s s1 -> same_usage s s1 -> logger s1 = logger s ->
  calls s1 = calls s ++ repeat (failed_call s messages n) j ->
  chat_post messages n s1 0 res s2 ->
  chat_post messages n s j res s2.
Proof.
  intros Hset Hus Hlog Hcalls (Hset2 & Hres).
  assert (Hreq : chat_request s1 messages n = chat_request s messages n)
    by (apply chat_request_settings; exact Hset).
  assert (Hset' : same_settings s s2).
  { destruct Hset as (? & ? & ?), Hset2 as (? & ? & ?).
    unfold same_settings. repeat split; congruence. }
  split; [exact Hset'|].
  unfold failed_call, served_call in *. rewrite Hreq in Hres.
  destruct Hus as (Hp & Hc & Hcost).
  destruct res as [e|r]; cbn [repeat app] in Hres.
  - destruct Hres as (Hl & [(Hc2 & Hp2 & Hc3 & Hcost2)|(-> & Hc2)]).
    + split; [congruence|]. left. split.
      * rewrite Hc2, Hcalls, <- app_assoc, repeat_snoc. reflexivity.
      * unfold same_usage. repeat split; congruence.
    + split; [congruence|]. right. split; [reflexivity|].
      rewrite Hc2, Hcalls, <- app_assoc. reflexivity.
  - destruct Hres as (Hcalls2 & Hl & Hu).
    split; [rewrite Hcalls2, Hcalls, <- app_assoc; reflexivity|].
    split; [congruence|].
    unfold usage_post in *. rewrite <- Hp, <- Hc, <- Hcost. exact Hu.
Qed.

Lemma retry_chat_post (messages : list Message) (n : Z) (s : State W)
    (limit_us start : Z) (retries : nat) :
  forall (j : nat) (s1 s' : State W) (res : result ChatCompletion),
    same_settings s s1 -> same_usage s s1 -> logger s1 = logger s ->
    calls s1 = calls s ++ repeat (failed_call s messages n) j ->
    retry_exception retries limit_us start (chat_body messages n) s1
      = (res, s') ->
    exists k, (j <= k <= j + retries)%nat /\ chat_post messages n s k res s'.
Proof.
  induction retries as [|retries IH]; intros j s1 s' res Hset Hus Hlog Hcalls;
    cbn [retry_exception];
    destruct (chat_body messages n s1) as [[e|r] s2] eqn:Hbody;
    apply chat_body_post in Hbody;
    apply (chat_post_after_failures _ _ s s1 s2 j) in Hbody; try assumption.
  - destruct (is_OpenAIError e); intros [= <- <-];
      exists j; (split; [lia|exact Hbody]).
  - intros [= <- <-]. exists j. split; [lia|exact Hbody].
  - destruct (is_OpenAIError e) eqn:He.
    + destruct (limit_us <=? clock (env s1) - start).
      * intros [= <- <-]. exists j. split; [lia|exact Hbody].
      * intros Hrec.
        destruct Hbody as (Hset2 & Hl2 & [(Hc2 & Hus2)|(-> & _)]);
          [|discriminate He].
        apply (IH (S j)) in Hrec as (k & Hk & Hpost); try assumption.
        exists k. split; [lia|exact Hpost].
    + intros [= <- <-]. exists j. split; [lia|exact Hbody].
  - intros [= <- <-]. exists j. split; [lia|exact Hbody].
Qed.

(** [chat] makes at most [max_tries] calls, all for the same request; it
    logs and updates the usage only when it returns. *)
Lemma chat_spec (messages : list Message) (n : Z) (s s' : State W)
    (res : result ChatCompletion) :
  chat messages n s = (res, s') ->
  exists k, (k < max_tries)%nat /\ chat_post messages n s k res s'.
Proof.
  unfold chat. intros Hrun.
  apply (retry_chat_post messages n s _ _ _ 0%nat) in Hrun
    as (k & Hk & Hpost).
  - exists k. split; [unfold max_tries in *; cbn in Hk; lia|exact Hpost].
  - unfold same_settings. auto.
  - unfold same_usage. auto.
  - reflexivity.
  - cbn. rewrite app_nil_r. reflexivity.
Qed.

End RetryFacts.

Section LoopFacts.
Context {W : Type} `{Client W}.

Lemma failed_attempts_snoc (l : list LogRecord) (x : LogRecord) :
  failed_attempts (l ++ [x])
    = (failed_attempts l + if is_warning x then 1 else 0)%nat.
Proof.
  unfold failed_attempts. rewrite List.filter_app, length_app. cbn.
  destruct (is_warning x); reflexivity.
Qed.

Lemma successful_chats_snoc (l : list LogRecord) (x : LogRecord) :
  successful_chats (l ++ [x])
    = (successful_chats l + if is_warning x then 0 else 1)%nat.
Proof.
  unfold successful_chats, is_info. rewrite List.filter_app, length_app.
  cbn. destruct (is_warning x); reflexivity.
Qed.

Lemma loop_cond_true (ls : Loop) :
  loop_cond ls = true <-> 0 < num_responses ls /\ 0 < total_num_attempts ls.
Proof. unfold loop_cond. rewrite andb_true_iff, !Z.ltb_lt. reflexivity. Qed.

Lemma loop_cond_false (ls : Loop) :
  loop_cond ls = false <->
  num_responses ls <= 0 \/ total_num_attempts ls <= 0.
Proof. unfold loop_cond. rewrite andb_false_iff, !Z.ltb_ge. reflexivity. Qed.

(** The attempt is the guarded call: it is [chat] when the assertion
    holds and an [AssertionError] otherwise. *)
Lemma attempt_spec (q : string) (ls : Loop) (s s' : State W)
    (res : result ChatCompletion) :
  attempt q ls s = (res, s') ->
  (0 < next_try ls /\
   exists k, (k < max_tries)%nat /\
             chat_post (user_message q) (next_try ls) s k res s') \/
  (next_try ls <= 0 /\ res = inl AssertionError /\ s' = s).
Proof.
  unfold attempt. destruct (0 <? next_try ls) eqn:Hpos.
  - intros Hchat. left. split; [apply Z.ltb_lt; exact Hpos|].
    apply chat_spec. exact Hchat.
  - intros [= <- <-]. right. split; [apply Z.ltb_ge; exact Hpos|]. auto.
Qed.

Lemma loop_init_inv (count : Z) (s : State W) :
  1 <= count -> loop_inv count s (loop_init count) s.
Proof.
  intros Hc. unfold loop_inv, loop_init, same_settings. cbn.
  repeat split; try lia.
  exists []. rewrite app_nil_r. split; [reflexivity|constructor].
Qed.

Lemma Forall_repeat_elem {A : Type} (P : A -> Prop) (x : A) (k : nat) :
  P x -> Forall P (repeat x k).
Proof. intros Hx. induction k; cbn; constructor; assumption. Qed.

Lemma loop_body_inv (q : string) (count : Z) (s0 : State W) (ls : Loop)
    (s : State W) :
  loop_inv count s0 ls s -> loop_cond ls = true ->
  loop_inv count s0 (fst (loop_body q ls s)) (snd (loop_body q ls s)).
Proof.
  intros (Hn & Ht & Hle & Hpos & Hcnt & Hfail & Hok & Hset & l & Hcalls & Hall)
         Hcond.
  apply loop_cond_true in Hcond as (Hn' & Ht').
  specialize (Hpos Hn').
  unfold loop_body.
  destruct (attempt q ls s) as [[e|r] s1] eqn:Hatt;
    apply attempt_spec in Hatt
      as [(_ & k & Hk & Hset1 & Hpost)|(Hbad & _)]; try lia;
    pose proof (halving_bounds _ Hpos) as Hhalf;
    assert (Hset' : same_settings s0 s1)
      by (destruct Hset as (? & ? & ?), Hset1 as (? & ? & ?);
          unfold same_settings; repeat split; congruence);
    assert (Hreq : 1 <= req_n (chat_request s (user_message q) (next_try ls))
                    <= count) by (cbn; lia);
    unfold loop_inv; cbn [fst snd response num_responses next_try
                            total_num_attempts].
  - destruct Hpost as (Hlog & Hcalls1).
    do 5 (split; [lia|]).
    split; [|split; [|split; [exact Hset'|]]].
    + cbn [logger set_env log]. rewrite failed_attempts_snoc, Hlog.
      cbn [is_warning]. lia.
    + cbn [logger set_env log]. rewrite successful_chats_snoc, Hlog.
      cbn [is_warning]. lia.
    + destruct Hcalls1 as [(Hc1 & _)|(_ & Hc1)]; cbn [calls set_env log];
        rewrite Hc1, Hcalls, <- app_assoc; eexists;
        (split; [reflexivity|]);
        rewrite ?Forall_app; repeat split; try assumption;
        try (apply Forall_repeat_elem; exact Hreq);
        repeat constructor; cbn; lia.
  - destruct Hpost as (Hcalls1 & Hlog & _).
    do 5 (split; [lia|]).
    split; [|split; [|split; [exact Hset'|]]].
    + rewrite Hlog, failed_attempts_snoc. cbn [is_warning]. lia.
    + rewrite Hlog, successful_chats_snoc, length_app.
      cbn [is_warning length]. lia.
    + rewrite Hcalls1, Hcalls, <- app_assoc. eexists.
      split; [reflexivity|].
      rewrite !Forall_app. repeat split; try assumption.
      * apply Forall_repeat_elem. exact Hreq.
      * repeat constructor; cbn; lia.
Qed.

Lemma reaches_inv_pair (q : string) (count : Z) (s0 : State W)
    (x y : Loop * State W) :
  loop_reaches q x y ->
  loop_inv count s0 (fst x) (snd x) -> loop_inv count s0 (fst y) (snd y).
Proof.
  induction 1 as [x|ls s y Hcond _ IH]; intros Hinv; [exact Hinv|].
  apply IH. apply loop_body_inv; assumption.
Qed.

Lemma reaches_inv (q : string) (count : Z) (s0 : State W) (ls : Loop)
    (s : State W) :
  1 <= count ->
  loop_reaches q (loop_init count, s0) (ls, s) -> loop_inv count s0 ls s.
Proof.
  intros Hc Hreach.
  apply (reaches_inv_pair q count s0) in Hreach; [exact Hreach|].
  apply loop_init_inv. exact Hc.
Qed.

Lemma reaches_trans (q : string) (x y z : Loop * State W) :
  loop_reaches q x y -> loop_reaches q y z -> loop_reaches q x z.
Proof.
  induction 1 as [x|ls s y Hcond _ IH]; intros Hyz; [exact Hyz|].
  apply reaches_step; [exact Hcond|apply IH; exact Hyz].
Qed.

(** The batch size never grows along the loop. *)
Lemma reaches_next_try_le (q : string) (count : Z) (s0 : State W)
    (x y : Loop * State W) :
  loop_reaches q x y ->
  loop_inv count s0 (fst x) (snd x) -> next_try (fst y) <= next_try (fst x).
Proof.
  induction 1 as [x|ls s y Hcond _ IH]; intros Hinv; [lia|].
  pose proof (loop_body_inv q count s0 ls s Hinv Hcond) as Hinv'.
  specialize (IH Hinv'). etransitivity; [exact IH|].
  cbn [fst snd] in *.
  destruct Hinv as (_ & _ & _ & Hpos & _).
  apply loop_cond_true in Hcond as (Hn & _). specialize (Hpos Hn).
  unfold loop_body. destruct (attempt q ls s) as [[e|r] s1]; cbn.
  - pose proof (halving_bounds _ Hpos). lia.
  - lia.
Qed.

Lemma reaches_step_pair (q : string) (x y : Loop * State W) :
  loop_cond (fst x) = true ->
  loop_reaches q (loop_body q (fst x) (snd x)) y ->
  loop_reaches q x y.
Proof. destruct x as [ls s]. apply reaches_step. Qed.

End LoopFacts.

Section TerminationFacts.
Context {W : Type} `{Client W}.

Lemma while_loop_reaches (q : string) (fuel : nat) :
  forall (ls ls' : Loop) (s s' : State W),
    while_loop fuel q ls s = Some (ls', s') ->
    loop_reaches q (ls, s) (ls', s') /\ loop_cond ls' = false.
Proof.
  induction fuel as [|fuel IH]; intros ls ls' s s'; cbn [while_loop];
    destruct (loop_cond ls) eqn:Hcond; try discriminate.
  - intros [= <- <-]. split; [constructor|exact Hcond].
  - destruct (loop_body q ls s) as [ls1 s1] eqn:Hbody. intros Hrun.
    apply IH in Hrun as (Hreach & Hexit). split; [|exact Hexit].
    apply reaches_step; [exact Hcond|]. rewrite Hbody. exact Hreach.
  - intros [= <- <-]. split; [constructor|exact Hcond].
Qed.

(** Every iteration uses up a response still wanted or an attempt. *)
Lemma loop_fuel_decreases (q : string) (ls : Loop) (s : State W) :
  loop_cond ls = true ->
  (loop_fuel (fst (loop_body q ls s)) < loop_fuel ls)%nat.
Proof.
  intros Hcond. apply loop_cond_true in Hcond as (Hn & Ht).
  unfold loop_body, loop_fuel.
  destruct (attempt q ls s) as [[e|r] s1] eqn:Hatt; cbn.
  - lia.
  - apply attempt_spec in Hatt as [(Hpos & _)|(_ & [=] & _)]. lia.
Qed.

Lemma while_loop_total (q : string) (fuel : nat) :
  forall (ls : Loop) (s : State W),
    (loop_fuel ls <= fuel)%nat ->
    exists out, while_loop fuel q ls s = Some out.
Proof.
  induction fuel as [|fuel IH]; intros ls s Hfuel; cbn [while_loop];
    destruct (loop_cond ls) eqn:Hcond; eauto.
  - apply loop_cond_true in Hcond. unfold loop_fuel in Hfuel. lia.
  - pose proof (loop_fuel_decreases q ls s Hcond) as Hdec.
    destruct (loop_body q ls s) as [ls1 s1]. apply IH. cbn in Hdec. lia.
Qed.

(** [query] always produces an outcome: the fuel it gives the loop is
    enough, whatever the count, the state and the transport. *)
Lemma query_total (q : string) (n : Z) (s : State W) :
  exists out, query q n s = Some out.
Proof.
  unfold query. destruct (cache_lookup q s); [eauto|].
  destruct (n =? 1).
  - destruct (chat (user_message q) n s) as [[e|r] s1]; eauto.
  - destruct (while_loop_total q _ (loop_init n) s (Nat.le_refl _))
      as ([ls s1] & ->). eauto.
Qed.

(** A miss on the multi-response path runs the loop and stores its
    responses. *)
Lemma query_many (q : string) (n : Z) (s : State W) :
  n <> 1 -> cache_lookup q s = None ->
  exists ls s1,
    while_loop (loop_fuel (loop_init n)) q (loop_init n) s = Some (ls, s1) /\
    query q n s
      = Some (inr (Many (response ls)),
              cache_update q (Many (response ls)) s1).
Proof.
  intros Hn Hmiss. unfold query. rewrite Hmiss.
  destruct (n =? 1) eqn:Hn1; [apply Z.eqb_eq in Hn1; contradiction|].
  destruct (while_loop_total q _ (loop_init n) s (Nat.le_refl _))
    as ([ls s1] & Hrun).
  exists ls, s1. rewrite Hrun. auto.
Qed.

Lemma cache_lookup_update (q : string) (r : QueryResponse) (s : State W) :
  cache s = true -> cache_lookup q (cache_update q r s) = Some r.
Proof.
  intros Hc. unfold cache_lookup, cache_update. rewrite Hc. cbn.
  rewrite Hc. apply lookup_insert_eq.
Qed.

(** With caching on, a call that returns leaves its result in the cache
    under the prompt. *)
Lemma query_caches (q : string) (n : Z) (s s1 : State W)
    (r : QueryResponse) :
  cache s = true -> query q n s = Some (inr r, s1) ->
  cache s1 = true /\ cache_lookup q s1 = Some r.
Proof.
  intros Hc. unfold query.
  destruct (cache_lookup q s) as [r0|] eqn:Hlook.
  - intros [= <- <-]. auto.
  - destruct (n =? 1).
    + destruct (chat (user_message q) n s) as [[e|res] s2] eqn:Hchat;
        [discriminate|].
      intros [= <- <-].
      apply chat_spec in Hchat as (k & _ & (_ & Hc2 & _) & _).
      assert (Hc3 : cache s2 = true) by congruence.
      split; [|apply cache_lookup_update; exact Hc3].
      unfold cache_update. rewrite Hc3. exact Hc3.
    + destruct (while_loop _ q (loop_init n) s) as [[ls s2]|] eqn:Hrun;
        [|discriminate].
      intros [= <- <-].
      assert (Hc3 : cache s2 = true).
      { apply while_loop_reaches in Hrun as (Hreach & _).
        clear Hlook.
        assert (Hgen : forall x y, loop_reaches q x y ->
                                   cache (snd x) = true ->
                                   cache (snd y) = true).
        { clear. induction 1 as [x|ls s y Hcond _ IH]; [auto|].
          intros Hc. apply IH. cbn in *. unfold loop_body.
          destruct (attempt q ls s) as [[e|r] s1] eqn:Hatt;
            apply attempt_spec in Hatt
              as [(_ & k & _ & (_ & Hc1 & _) & _)|(_ & _ & ->)];
            cbn; congruence. }
        apply (Hgen _ _ Hreach). exact Hc. }
      split; [|apply cache_lookup_update; exact Hc3].
      unfold cache_update. rewrite Hc3. exact Hc3.
Qed.

(** A hit returns the cached value and touches nothing. *)
Lemma query_hit (q : string) (n : Z) (s : State W) (r : QueryResponse) :
  cache_lookup q s = Some r -> query q n s = Some (inr r, s).
Proof. intros Hhit. unfold query. rewrite Hhit. reflexivity. Qed.

(** The loop of [query q count] runs to its exit, where the guard is false
    and the invariant still holds. *)
Lemma loop_runs_to_exit (q : string) (count : Z) (s : State W) :
  1 <= count ->
  exists ls' s',
    while_loop (loop_fuel (loop_init count)) q (loop_init count) s
      = Some (ls', s') /\
    loop_reaches q (loop_init count, s) (ls', s') /\
    loop_cond ls' = false /\
    loop_inv count s ls' s'.
Proof.
  intros Hcount.
  destruct (while_loop_total q _ (loop_init count) s (Nat.le_refl _))
    as ([ls' s'] & Hrun).
  exists ls', s'. split; [exact Hrun|].
  apply while_loop_reaches in Hrun as (Hreach & Hexit).
  split; [exact Hreach|]. split; [exact Hexit|].
  apply (reaches_inv q); assumption.
Qed.

End TerminationFacts.

Section AdaptiveLoop.
Context {W : Type} `{Client W}.

(** C1: for every count > 1, when an attempt of the adaptive loop fails,
    the next batch size is [ceil(previous / 2)] floored at 1, it is not
    larger than the previous one and no later batch size is larger than
    it; the number of responses still wanted is unchanged, the attempt
    budget drops by exactly 1, nothing is added to the responses, and
    the failure is logged with the new batch size. *)
Theorem failure_halves_batch (q : string) (count : Z) (s0 : State W)
    (ls : Loop) (s s1 : State W) (e : exn) :
  1 < count ->
  loop_reaches q (loop_init count, s0) (ls, s) ->
  loop_cond ls = true ->
  attempt q ls s = (inl e, s1) ->
  let ls' := fst (loop_body q ls s) in
  next_try ls' = Z.max 1 (ceil_half (next_try ls)) /\
  next_try ls' <= next_try ls /\
  num_responses ls' = num_responses ls /\
  total_num_attempts ls' = total_num_attempts ls - 1 /\
  response ls' = response ls /\
  logger (snd (loop_body q ls s))
    = logger s ++ [LogWarning e (next_try ls')] /\
  forall ls2 s2,
    loop_reaches q (loop_body q ls s) (ls2, s2) ->
    next_try ls2 <= next_try ls'.
Proof.
  intros Hcount Hreach Hcond Hatt.
  pose proof (reaches_inv q count s0 ls s ltac:(lia) Hreach) as Hinv.
  pose proof (loop_body_inv q count s0 ls s Hinv Hcond) as Hinv'.
  pose proof (fun y => reaches_next_try_le q count s0 (loop_body q ls s) y)
    as Hmono.
  destruct Hinv as (_ & _ & _ & Hpos & _).
  pose proof (proj1 (loop_cond_true ls) Hcond) as (Hn & _).
  specialize (Hpos Hn).
  assert (Hlog : logger s1 = logger s).
  { apply attempt_spec in Hatt as [(_ & k & _ & _ & Hl & _)|(_ & _ & ->)];
      [exact Hl|reflexivity]. }
  revert Hinv' Hmono. unfold loop_body. rewrite Hatt.
  cbn [fst snd next_try num_responses total_num_attempts response].
  intros Hinv' Hmono.
  pose proof (halving_bounds _ Hpos) as Hhalf.
  split; [apply halving_is_ceil_half; exact Hpos|].
  split; [lia|]. split; [reflexivity|]. split; [reflexivity|].
  split; [reflexivity|].
  split; [cbn [logger set_env log]; rewrite Hlog; reflexivity|].
  intros ls2 s2 Hreach2.
  apply (Hmono (ls2, s2)); assumption.
Qed.

(** C2: for every count > 1, when an attempt of the adaptive loop
    succeeds, the response is appended, the number of responses still
    wanted drops by the batch size just requested (the size of the
    request that was served), the next batch size is the minimum of what
    is still wanted and the previous batch size, hence never larger than
    the previous one; the attempt budget is unchanged. *)
Theorem success_shrinks_batch (q : string) (count : Z) (s0 : State W)
    (ls : Loop) (s s1 : State W) (res : ChatCompletion) :
  1 < count ->
  loop_reaches q (loop_init count, s0) (ls, s) ->
  loop_cond ls = true ->
  attempt q ls s = (inr res, s1) ->
  let ls' := fst (loop_body q ls s) in
  response ls' = response ls ++ [res] /\
  num_responses ls' = num_responses ls - next_try ls /\
  next_try ls' = Z.min (num_responses ls') (next_try ls) /\
  next_try ls' <= next_try ls /\
  total_num_attempts ls' = total_num_attempts ls /\
  (exists c, last (calls s1) = Some c /\ call_ok c = true /\
             req_n (call_request c) = next_try ls) /\
  snd (loop_body q ls s) = s1.
Proof.
  intros Hcount Hreach Hcond Hatt. unfold loop_body. rewrite Hatt.
  cbn [fst snd next_try num_responses total_num_attempts response].
  split; [reflexivity|]. split; [reflexivity|]. split; [reflexivity|].
  split; [lia|]. split; [reflexivity|]. split; [|reflexivity].
  apply attempt_spec in Hatt
    as [(_ & k & _ & _ & Hcalls & _)|(_ & [=] & _)].
  exists (served_call s (user_message q) (next_try ls)).
  rewrite Hcalls, !app_assoc, last_snoc. auto.
Qed.

(** C9: for every count > 1, at every iteration of the adaptive loop the
    batch size is at least 1 (and at most what is still wanted), so the
    assertion holds, the attempt is the call of [chat] with that batch
    size, and every request the loop has sent to the transport asks for
    at least one choice. *)
Theorem batch_size_positive (q : string) (count : Z) (s0 : State W)
    (ls : Loop) (s : State W) :
  1 < count ->
  loop_reaches q (loop_init count, s0) (ls, s) ->
  loop_cond ls = true ->
  1 <= next_try ls <= num_responses ls /\
  (0 <? next_try ls) = true /\
  attempt q ls s = chat (user_message q) (next_try ls) s /\
  exists sent,
    calls (snd (loop_body q ls s)) = calls s0 ++ sent /\
    Forall (fun c => 1 <= req_n (call_request c)) sent.
Proof.
  intros Hcount Hreach Hcond.
  pose proof (reaches_inv q count s0 ls s ltac:(lia) Hreach) as Hinv.
  pose proof (loop_body_inv q count s0 ls s Hinv Hcond) as Hinv'.
  destruct Hinv as (_ & _ & Hle & Hpos & _).
  pose proof (proj1 (loop_cond_true ls) Hcond) as (Hn & _).
  specialize (Hpos Hn).
  assert (Hassert : (0 <? next_try ls) = true) by (apply Z.ltb_lt; lia).
  split; [lia|]. split; [exact Hassert|].
  split; [unfold attempt; rewrite Hassert; reflexivity|].
  destruct Hinv' as (_ & _ & _ & _ & _ & _ & _ & _ & sent & Hsent & Hall).
  exists sent. split; [exact Hsent|].
  eapply Forall_impl; [exact Hall|]. cbn. intros c Hc. lia.
Qed.

(** C4: for every count > 1 the adaptive loop terminates.  It stops in a
    state where no response is wanted any more or the attempt budget is
    zero, and at every state it goes through its guard is false exactly
    in that case; it has made at most count failed attempts (as many as
    the attempt budget lost); and [query] returns the responses gathered
    so far as an ordinary result. *)
Theorem adaptive_loop_terminates (q : string) (count : Z) (s : State W) :
  1 < count ->
  exists ls' s',
    while_loop (loop_fuel (loop_init count)) q (loop_init count) s
      = Some (ls', s') /\
    loop_reaches q (loop_init count, s) (ls', s') /\
    (num_responses ls' = 0 \/ total_num_attempts ls' = 0) /\
    (forall ls1 s1,
        loop_reaches q (loop_init count, s) (ls1, s1) ->
        (loop_cond ls1 = false <->
         num_responses ls1 = 0 \/ total_num_attempts ls1 = 0)) /\
    Z.of_nat (failed_attempts (logger s'))
      = Z.of_nat (failed_attempts (logger s))
        + (count - total_num_attempts ls') /\
    (failed_attempts (logger s')
     <= failed_attempts (logger s) + Z.to_nat count)%nat /\
    (cache_lookup q s = None ->
     query q count s
       = Some (inr (Many (response ls')),
               cache_update q (Many (response ls')) s')).
Proof.
  intros Hcount.
  destruct (loop_runs_to_exit q count s ltac:(lia))
    as (ls' & s' & Hrun & Hreach & Hexit & Hinv).
  exists ls', s'. split; [exact Hrun|]. split; [exact Hreach|].
  assert (Hexact : forall ls1 s1,
             loop_reaches q (loop_init count, s) (ls1, s1) ->
             (loop_cond ls1 = false <->
              num_responses ls1 = 0 \/ total_num_attempts ls1 = 0)).
  { intros ls1 s1 Hr.
    apply (reaches_inv q count s) in Hr as (Hn & Ht & _); [|lia].
    rewrite loop_cond_false. lia. }
  split; [apply (Hexact ls' s' Hreach); exact Hexit|].
  split; [exact Hexact|].
  destruct Hinv as (_ & Ht & _ & _ & _ & Hfail & _).
  split; [exact Hfail|]. split; [lia|].
  intros Hmiss. unfold query. rewrite Hmiss.
  destruct (count =? 1) eqn:Hone; [apply Z.eqb_eq in Hone; lia|].
  rewrite Hrun. reflexivity.
Qed.

End AdaptiveLoop.

Section FailureFacts.
Context {W : Type} `{Client W}.

Lemma retry_fails {A : Type} (target : State W -> result A * State W)
    (limit_us start : Z) (retries : nat) :
  (forall s, is_ok (fst (target s)) = false) ->
  forall s, is_ok (fst (retry_exception retries limit_us start target s))
            = false.
Proof.
  intros Hfail. induction retries as [|retries IH]; intros s;
    cbn [retry_exception]; specialize (Hfail s);
    destruct (target s) as [[e|r] s1]; try discriminate Hfail.
  - destruct (is_OpenAIError e); reflexivity.
  - destruct (is_OpenAIError e); [|reflexivity].
    destruct (limit_us <=? clock (env s) - start); [reflexivity|apply IH].
Qed.

(** A transport that fails every call makes [chat] fail. *)
Lemma chat_fails (messages : list Message) (n : Z) :
  (forall req w, is_ok (fst (create req w)) = false) ->
  forall s, is_ok (fst (chat messages n s)) = false.
Proof.
  intros Hfail s. unfold chat. apply retry_fails. clear s. intros s.
  unfold chat_body. specialize (Hfail (chat_request s messages n) (env s)).
  destruct (create (chat_request s messages n) (env s)) as [[e|r] w];
    [reflexivity|discriminate Hfail].
Qed.

Lemma attempt_fails (q : string) (ls : Loop) :
  (forall req w, is_ok (fst (create req w)) = false) ->
  forall s, is_ok (fst (attempt q ls s)) = false.
Proof.
  intros Hfail s. unfold attempt.
  destruct (0 <? next_try ls); [apply chat_fails; exact Hfail|reflexivity].
Qed.

(** Under such a transport the loop gathers nothing, and stops only when
    the budget is used up. *)
Lemma reaches_all_fail (q : string) (x y : Loop * State W) :
  (forall req w, is_ok (fst (create req w)) = false) ->
  loop_reaches q x y ->
  response (fst y) = response (fst x) /\
  num_responses (fst y) = num_responses (fst x).
Proof.
  intros Hfail. induction 1 as [x|ls s y Hcond _ IH]; [auto|].
  destruct IH as (IHr & IHn). rewrite IHr, IHn. clear IHr IHn.
  pose proof (attempt_fails q ls Hfail s) as Hatt.
  unfold loop_body. destruct (attempt q ls s) as [[e|r] s1];
    [cbn; auto|discriminate Hatt].
Qed.

End FailureFacts.

Section ErrorsAndCache.
Context {W : Type} `{Client W}.

(** C5: for every count > 1, [query] returns a result and raises
    nothing; against a transport that fails every call it returns, on a
    cache miss, the empty sequence of responses (fewer choices than
    asked for) after count failed attempts.  For count = 1, on a cache
    miss, the exception with which [chat] gives up is raised by [query],
    nothing is cached, and against a transport that fails every call
    [query] does raise, after at most [max_tries] calls. *)
Theorem transport_errors (q : string) (count : Z) (s : State W) :
  1 < count ->
  (exists r s', query q count s = Some (inr r, s')) /\
  ((forall req w, is_ok (fst (create req w)) = false) ->
   cache_lookup q s = None ->
   exists s',
     query q count s = Some (inr (Many []), s') /\
     (total_choices [] < Z.to_nat count)%nat /\
     Z.of_nat (failed_attempts (logger s'))
       = Z.of_nat (failed_attempts (logger s)) + count) /\
  (forall e s1,
      cache_lookup q s = None ->
      chat (user_message q) 1 s = (inl e, s1) ->
      query q 1 s = Some (inl e, s1) /\
      response_cache s1 = response_cache s) /\
  ((forall req w, is_ok (fst (create req w)) = false) ->
   cache_lookup q s = None ->
   exists e s1,
     query q 1 s = Some (inl e, s1) /\
     (length (calls s1) <= length (calls s) + max_tries)%nat).
Proof.
  intros Hcount.
  assert (Hraise : forall e s1,
             cache_lookup q s = None ->
             chat (user_message q) 1 s = (inl e, s1) ->
             query q 1 s = Some (inl e, s1) /\
             response_cache s1 = response_cache s).
  { intros e s1 Hmiss Hchat. unfold query. rewrite Hmiss. cbn [Z.eqb Pos.eqb].
    rewrite Hchat. split; [reflexivity|].
    apply chat_spec in Hchat as (k & _ & (_ & _ & Hrc) & _). exact Hrc. }
  split; [|split; [|split; [exact Hraise|]]].
  - destruct (cache_lookup q s) as [r|] eqn:Hlook.
    + exists r, s. apply query_hit. exact Hlook.
    + destruct (query_many q count s ltac:(lia) Hlook)
        as (ls & s1 & _ & Hq). eauto.
  - intros Hfail Hmiss.
    destruct (loop_runs_to_exit q count s ltac:(lia))
      as (ls' & s' & Hrun & Hreach & Hexit & Hinv).
    apply (reaches_all_fail q _ _ Hfail) in Hreach as (Hresp & Hnum).
    cbn in Hresp, Hnum.
    apply loop_cond_false in Hexit.
    destruct Hinv as (_ & Ht & _ & _ & _ & Hcnt & _).
    unfold query. rewrite Hmiss.
    destruct (count =? 1) eqn:Hone; [apply Z.eqb_eq in Hone; lia|].
    rewrite Hrun, Hresp. eexists. split; [reflexivity|].
    split; [cbn; lia|].
    unfold cache_update. destruct (cache s'); cbn [logger cache_store]; lia.
  - intros Hfail Hmiss.
    pose proof (chat_fails (user_message q) 1 Hfail s) as Hbad.
    destruct (chat (user_message q) 1 s) as [[e|r] s1] eqn:Hchat;
      [|discriminate Hbad].
    exists e, s1. split; [apply (Hraise e s1 Hmiss eq_refl)|].
    apply chat_spec in Hchat
      as (k & Hk & _ & _ & [(Hcalls & _)|(_ & Hcalls)]);
      rewrite Hcalls, !length_app, ?repeat_length; cbn; lia.
Qed.

(** C7: with caching enabled, once [query q n] has returned a result
    (complete or degraded), the same call again returns that very result
    and leaves the whole state as it was: no call to the transport, no
    log record, no change of the usage counters, whatever the
    environment has become in the meantime. *)
Theorem cached_query_idempotent (q : string) (n : Z) (s s1 : State W)
    (r : QueryResponse) :
  cache s = true ->
  query q n s = Some (inr r, s1) ->
  query q n s1 = Some (inr r, s1) /\
  (forall w, query q n (set_env w s1) = Some (inr r, set_env w s1)) /\
  (forall out s2, query q n s1 = Some (out, s2) ->
                  out = inr r /\ calls s2 = calls s1 /\ env s2 = env s1).
Proof.
  intros Hc Hq. apply query_caches in Hq as (Hc1 & Hlook); [|exact Hc].
  assert (Hagain : query q n s1 = Some (inr r, s1))
    by (apply query_hit; exact Hlook).
  split; [exact Hagain|]. split.
  - intros w. apply query_hit. exact Hlook.
  - intros out s2. rewrite Hagain. intros [= <- <-]. auto.
Qed.

(** C10: the cache is keyed by the prompt alone.  With caching enabled,
    once [query q n1] has returned, [query q n2] with another count
    returns the result of the first call and leaves the state as it was
    (no transport call).  When the first call was a miss its result has
    the shape n1 asks for, a single response exactly when n1 = 1, and
    that is the shape the second call returns, whatever n2. *)
Theorem cache_ignores_count (q : string) (n1 n2 : Z) (s s1 : State W)
    (r : QueryResponse) :
  cache s = true ->
  n1 <> n2 ->
  query q n1 s = Some (inr r, s1) ->
  query q n2 s1 = Some (inr r, s1) /\
  (forall out s2, query q n2 s1 = Some (out, s2) ->
                  out = inr r /\ calls s2 = calls s1 /\ env s2 = env s1) /\
  (cache_lookup q s = None ->
   (n1 = 1 <-> exists c, r = Single c) /\
   (n1 <> 1 <-> exists rs, r = Many rs)).
Proof.
  intros Hc Hne Hq.
  pose proof (query_caches q n1 s s1 r Hc Hq) as (Hc1 & Hlook).
  assert (Hagain : query q n2 s1 = Some (inr r, s1))
    by (apply query_hit; exact Hlook).
  split; [exact Hagain|]. split.
  - intros out s2. rewrite Hagain. intros [= <- <-]. auto.
  - intros Hmiss. revert Hq. unfold query. rewrite Hmiss.
    destruct (n1 =? 1) eqn:Hone.
    + apply Z.eqb_eq in Hone.
      destruct (chat (user_message q) n1 s) as [[e|c] s2]; [discriminate|].
      intros [= <- <-]. split; split.
      * intros _. eauto.
      * intros _. exact Hone.
      * intros Hn. contradiction.
      * intros (rs & [=]).
    + apply Z.eqb_neq in Hone.
      destruct (while_loop _ q (loop_init n1) s) as [[ls s2]|];
        [|discriminate].
      intros [= <- <-]. split; split.
      * intros Hn. contradiction.
      * intros (c & [=]).
      * intros _. eauto.
      * intros _. exact Hone.
Qed.

End ErrorsAndCache.

Section Usage.
Context {W : Type} `{Client W}.

Lemma chat_returns_usage (messages : list Message) (n : Z) (s s' : State W)
    (r : ChatCompletion) :
  chat messages n s = (inr r, s') -> usage_post s r s'.
Proof.
  intros Hchat. apply chat_spec in Hchat as (k & _ & _ & _ & _ & Hu).
  exact Hu.
Qed.

Lemma usage_post_sums (s s' : State W) (r : ChatCompletion) :
  usage_post s r s' ->
  prompt_tokens s' = prompt_tokens s + usage_prompt_sum [r] /\
  completion_tokens s' = completion_tokens s + usage_completion_sum [r].
Proof.
  unfold usage_post, usage_prompt_sum, usage_completion_sum. cbn.
  destruct (usage r) as [u|]; intros (Hp & Hc & _); lia.
Qed.

(** C6: after every [chat] that returns, if the response carries usage
    data the two token counters have grown by the reported amounts and
    [cost] is [prompt_token_cost * (float(prompt_tokens) / 1000.0) +
    response_token_cost * (float(completion_tokens) / 1000.0)] in
    binary64 arithmetic; if it carries none, the three counters are
    unchanged, and such a response is returned, not turned into an
    error.  Hence after N returned calls the counters have grown by the
    sums of the reported usages, and equal them when they started at
    zero. *)
Theorem usage_accounting (reqs : list (list Message * Z)) (s s' : State W)
    (rs : list ChatCompletion) :
  chat_all reqs s = Some (rs, s') ->
  length rs = length reqs /\
  usage_chain s rs s' /\
  prompt_tokens s' = prompt_tokens s + usage_prompt_sum rs /\
  completion_tokens s' = completion_tokens s + usage_completion_sum rs /\
  (prompt_tokens s = 0 -> completion_tokens s = 0 ->
   prompt_tokens s' = usage_prompt_sum rs /\
   completion_tokens s' = usage_completion_sum rs) /\
  (forall messages n (s1 : State W) r w,
      create (chat_request s1 messages n) (env s1) = (inr r, w) ->
      usage r = None ->
      exists s2, chat messages n s1 = (inr r, s2) /\ same_usage s1 s2).
Proof.
  intros Hrun.
  assert (Hmain : length rs = length reqs /\ usage_chain s rs s' /\
            prompt_tokens s' = prompt_tokens s + usage_prompt_sum rs /\
            completion_tokens s'
              = completion_tokens s + usage_completion_sum rs).
  { revert s rs Hrun.
    induction reqs as [|[messages n] reqs IH]; intros s rs; cbn [chat_all].
    - intros [= <- <-]. cbn. repeat split; try lia. constructor.
    - destruct (chat messages n s) as [[e|r] s1] eqn:Hchat; [discriminate|].
      destruct (chat_all reqs s1) as [[rs1 s2]|] eqn:Hrest; [|discriminate].
      intros [= <- <-].
      apply chat_returns_usage in Hchat.
      destruct (IH _ _ Hrest) as (Hlen & Hchain & Hp & Hc).
      destruct (usage_post_sums _ _ _ Hchat) as (Hp1 & Hc1).
      split; [cbn; lia|].
      split; [econstructor; eassumption|].
      revert Hp1 Hc1. unfold usage_prompt_sum, usage_completion_sum.
      cbn [foldr]. rewrite Hp, Hc.
      unfold usage_prompt_sum, usage_completion_sum.
      destruct (usage r); lia. }
  destruct Hmain as (Hlen & Hchain & Hp & Hc).
  split; [exact Hlen|]. split; [exact Hchain|]. split; [exact Hp|].
  split; [exact Hc|]. split; [lia|].
  intros messages n s1 r w Hcreate Hnone.
  unfold chat, max_tries. cbn [Nat.pred retry_exception].
  unfold chat_body. rewrite Hcreate.
  unfold update_usage. rewrite Hnone.
  eexists. split; [reflexivity|]. unfold same_usage. cbn. auto.
Qed.

End Usage.

Section Texts.

Lemma map_lookup_some {A B : Type} (f : A -> B) (l : list A) (j : nat)
    (x : A) :
  l !! j = Some x -> map f l !! j = Some (f x).
Proof.
  revert j. induction l as [|y l IH]; intros [|j]; cbn; try discriminate.
  - intros [= ->]. reflexivity.
  - apply IH.
Qed.

Lemma total_choices_cons (r : ChatCompletion) (rs : list ChatCompletion) :
  total_choices (r :: rs) = (length (choices r) + total_choices rs)%nat.
Proof. reflexivity. Qed.

Lemma flat_texts_length (rs : list ChatCompletion) :
  length (get_response_texts (Many rs)) = total_choices rs.
Proof.
  induction rs as [|r rs IH]; [reflexivity|].
  cbn [get_response_texts flat_map] in *.
  rewrite length_app, length_map, IH, total_choices_cons. reflexivity.
Qed.

Lemma flat_texts_lookup (rs : list ChatCompletion) :
  forall (i j : nat) (r : ChatCompletion) (c : Choice),
    rs !! i = Some r -> choices r !! j = Some c ->
    get_response_texts (Many rs) !! (total_choices (take i rs) + j)%nat
      = Some (content (message c)).
Proof.
  induction rs as [|r0 rs IH]; intros [|i] j r c; cbn [take];
    try discriminate.
  - intros [= ->] Hj. cbn [get_response_texts flat_map].
    rewrite lookup_app_l.
    + apply (map_lookup_some (fun c => content (message c))). exact Hj.
    + rewrite length_map. apply lookup_lt_Some in Hj. exact Hj.
  - intros Hi Hj. cbn [get_response_texts flat_map].
    rewrite total_choices_cons, lookup_app_r; rewrite length_map; [|lia].
    replace (length (choices r0) + total_choices (take i rs) + j
             - length (choices r0))%nat
      with (total_choices (take i rs) + j)%nat by lia.
    apply (IH i j r c); assumption.
Qed.

(** C8: whether given a single response or a sequence of responses,
    [get_response_texts] returns the texts of all the choices, flat:
    the texts of the first response's choices in their order, then
    those of the second, and so on.  The text of choice [j] of response
    [i] stands at position (number of choices of the responses before
    [i]) + [j], and the length of the output is the total number of
    choices. *)
Theorem response_texts_flat (query_response : QueryResponse) :
  let rs := responses_of query_response in
  get_response_texts query_response
    = concat (map (fun r => map (fun c => content (message c)) (choices r))
                rs) /\
  length (get_response_texts query_response) = total_choices rs /\
  forall (i j : nat) (r : ChatCompletion) (c : Choice),
    rs !! i = Some r -> choices r !! j = Some c ->
    get_response_texts query_response
      !! (total_choices (take i rs) + j)%nat
      = Some (content (message c)).
Proof.
  assert (Hsingle : forall r, get_response_texts (Single r)
                              = get_response_texts (Many [r])).
  { intros r. cbn. rewrite app_nil_r. reflexivity. }
  destruct query_response as [r|rs]; cbn [responses_of].
  - rewrite Hsingle. split; [|split].
    + cbn. reflexivity.
    + apply flat_texts_length.
    + apply flat_texts_lookup.
  - split; [|split].
    + cbn [get_response_texts]. apply List.flat_map_concat_map.
    + apply flat_texts_length.
    + apply flat_texts_lookup.
Qed.

End Texts.


(** ** The scenario, and the general properties at concrete runs *)

(** C3 (as amended): for [query prompt 5] against a stub that fails every
    request for more than two choices and otherwise returns exactly the
    number of choices asked for, the attempts are: 5 fails (next 3),
    3 fails (next 2), 2 succeeds (3 still wanted), 2 succeeds (1 still
    wanted), 1 succeeds (0 still wanted); the result holds 5 choices;
    there are 2 failed attempts, which leave 3 of the 5 attempts of the
    budget, and 3 served transport calls.  This holds whichever exception
    the stub raises, whether or not it reports usage, with or without the
    cache; the transport calls that failed number 12 when the stub raises
    an [OpenAIError] ([chat] tries six times per attempt) and 2
    otherwise. *)
Theorem scenario_five_responses (q : string)
    (openai reports cache_enabled : bool) :
  let s := stub_state cache_enabled (flaky openai reports) in
  scenario_outcome 2 q s /\
  match while_loop (loop_fuel (loop_init 5)) q (loop_init 5) s with
  | Some (ls, s') =>
      num_responses ls = 0 /\ total_num_attempts ls = 3 /\
      failed_calls (calls s') = (if openai then 12 else 2)%nat
  | None => False
  end.
Proof.
  destruct openai, reports, cache_enabled; vm_compute; auto 10.
Qed.

(** C3 (as stated) fails: against a stub that fails above two choices
    (here with an exception that [chat] does not retry, so that failed
    attempts and failed transport calls coincide) the run does not have 3
    failed attempts; it has 2, and 2 transport calls failed. *)
Lemma scenario_three_failures_refuted :
  ~ scenario_outcome 3 scenario_prompt (stub_state true (flaky false true)) /\
  (fun out => (failed_attempts (logger (snd out)),
               failed_calls (calls (snd out))))
    <$> query scenario_prompt 5 (stub_state true (flaky false true))
  = Some (2%nat, 2%nat).
Proof.
  split; [|vm_compute; reflexivity].
  intros (_ & Hrun). revert Hrun. vm_compute.
  intros (_ & _ & Hfailures & _). discriminate Hfailures.
Qed.

Lemma scenario_cond_start : loop_cond (fst scenario_start) = true.
Proof. vm_compute. reflexivity. Qed.

Lemma scenario_cond_one : loop_cond (fst scenario_after_one) = true.
Proof. vm_compute. reflexivity. Qed.

Lemma scenario_cond_two : loop_cond (fst scenario_after_two) = true.
Proof. vm_compute. reflexivity. Qed.

Lemma scenario_reaches_one :
  loop_reaches scenario_prompt scenario_start
    (fst scenario_after_one, snd scenario_after_one).
Proof.
  apply reaches_step_pair; [exact scenario_cond_start|].
  vm_compute. apply reaches_refl.
Qed.

Lemma scenario_reaches_two :
  loop_reaches scenario_prompt scenario_start
    (fst scenario_after_two, snd scenario_after_two).
Proof.
  eapply reaches_trans; [exact scenario_reaches_one|].
  apply reaches_step; [exact scenario_cond_one|].
  vm_compute. apply reaches_refl.
Qed.

(** The second attempt of the scenario fails, the third is served. *)
Lemma scenario_second_attempt :
  attempt scenario_prompt (fst scenario_after_one) (snd scenario_after_one)
  = (inl (OpenAIError "too many samples"),
     snd (attempt scenario_prompt (fst scenario_after_one)
            (snd scenario_after_one))).
Proof. vm_compute. reflexivity. Qed.

Lemma scenario_third_attempt :
  attempt scenario_prompt (fst scenario_after_two) (snd scenario_after_two)
  = (inr (stub_completion (flaky true true) 2),
     snd (attempt scenario_prompt (fst scenario_after_two)
            (snd scenario_after_two))).
Proof. vm_compute. reflexivity. Qed.

(** C1 at the second attempt of the scenario: the batch of 3 fails and
    the next batch is 2. *)
Lemma failure_halves_batch_witness :
  1 < 5 /\
  loop_cond (fst scenario_after_one) = true /\
  (next_try (fst scenario_after_one) = 3 /\
   next_try (fst scenario_after_two) = 2) /\
  next_try (fst scenario_after_two)
    = Z.max 1 (ceil_half (next_try (fst scenario_after_one))) /\
  num_responses (fst scenario_after_two)
    = num_responses (fst scenario_after_one) /\
  total_num_attempts (fst scenario_after_two)
    = total_num_attempts (fst scenario_after_one) - 1.
Proof.
  pose proof (failure_halves_batch scenario_prompt 5 _ _ _ _ _
                ltac:(lia) scenario_reaches_one scenario_cond_one
                scenario_second_attempt) as Hthm.
  cbv zeta in Hthm.
  destruct Hthm as (Hnext & _ & Hnum & Hbudget & _).
  split; [lia|]. split; [exact scenario_cond_one|].
  split; [vm_compute; split; reflexivity|].
  split; [exact Hnext|]. split; [exact Hnum|exact Hbudget].
Defined.

(** C2 at the third attempt of the scenario: the batch of 2 is served,
    3 responses are still wanted and the next batch is 2. *)
Lemma success_shrinks_batch_witness :
  1 < 5 /\
  loop_cond (fst scenario_after_two) = true /\
  (next_try (fst scenario_after_two) = 2 /\
   num_responses (fst scenario_after_two) = 5) /\
  num_responses
    (fst (loop_body scenario_prompt (fst scenario_after_two)
            (snd scenario_after_two)))
    = num_responses (fst scenario_after_two)
      - next_try (fst scenario_after_two) /\
  next_try
    (fst (loop_body scenario_prompt (fst scenario_after_two)
            (snd scenario_after_two)))
    <= next_try (fst scenario_after_two).
Proof.
  pose proof (success_shrinks_batch scenario_prompt 5 _ _ _ _ _
                ltac:(lia) scenario_reaches_two scenario_cond_two
                scenario_third_attempt) as Hthm.
  cbv zeta in Hthm.
  destruct Hthm as (_ & Hnum & _ & Hle & _).
  split; [lia|]. split; [exact scenario_cond_two|].
  split; [vm_compute; split; reflexivity|].
  split; [exact Hnum|exact Hle].
Defined.

(** C9 at the third attempt of the scenario. *)
Lemma batch_size_positive_witness :
  1 < 5 /\
  loop_cond (fst scenario_after_two) = true /\
  1 <= next_try (fst scenario_after_two)
    <= num_responses (fst scenario_after_two).
Proof.
  split; [lia|]. split; [exact scenario_cond_two|].
  exact (proj1 (batch_size_positive scenario_prompt 5 _ _ _
                  ltac:(lia) scenario_reaches_two scenario_cond_two)).
Defined.

(** C4 for the scenario. *)
Lemma adaptive_loop_terminates_witness :
  1 < 5 /\
  exists ls' s',
    while_loop (loop_fuel (loop_init 5)) scenario_prompt (loop_init 5)
      (stub_state true (flaky true true)) = Some (ls', s') /\
    (num_responses ls' = 0 \/ total_num_attempts ls' = 0).
Proof.
  split; [lia|].
  destruct (adaptive_loop_terminates scenario_prompt 5
              (stub_state true (flaky true true)) ltac:(lia))
    as (ls' & s' & Hrun & _ & Hexit & _).
  exists ls', s'. split; [exact Hrun|exact Hexit].
Defined.

Lemma refusing_client_refuses (req : Request) (w : nat) :
  is_ok (fst (create req w)) = false.
Proof. reflexivity. Qed.

Lemma refused_state_misses (cache_enabled : bool) :
  cache_lookup scenario_prompt (refused_state cache_enabled) = None.
Proof. destruct cache_enabled; vm_compute; reflexivity. Qed.

(** C5 against the refusing transport: asked for 4 responses [query]
    returns none of them after 4 failed attempts and raises nothing;
    asked for 1 it raises, after at most six calls. *)
Lemma transport_errors_witness :
  1 < 4 /\
  (exists s',
      query scenario_prompt 4 (refused_state true)
        = Some (inr (Many []), s') /\
      Z.of_nat (failed_attempts (logger s'))
        = Z.of_nat (failed_attempts (logger (refused_state true))) + 4) /\
  (exists e s1,
      query scenario_prompt 1 (refused_state true) = Some (inl e, s1) /\
      (length (calls s1)
       <= length (calls (refused_state true)) + max_tries)%nat).
Proof.
  destruct (transport_errors scenario_prompt 4 (refused_state true)
              ltac:(lia)) as (_ & Hdegraded & _ & Hraises).
  split; [lia|]. split.
  - destruct (Hdegraded refusing_client_refuses (refused_state_misses true))
      as (s' & Hq & _ & Hfailed).
    exists s'. split; [exact Hq|exact Hfailed].
  - destruct (Hraises refusing_client_refuses (refused_state_misses true))
      as (e & s1 & Hq & Hcalls).
    exists e, s1. split; [exact Hq|exact Hcalls].
Defined.

(** C6 for two calls served by the healthy stub, which reports 12 prompt
    tokens per call and 7 completion tokens per choice. *)
Lemma usage_accounting_witness :
  match chat_all [(user_message scenario_prompt, 2);
                  (user_message scenario_prompt, 1)]
          (stub_state false healthy) with
  | Some (rs, s') =>
      length rs = 2%nat /\
      prompt_tokens s' = usage_prompt_sum rs /\
      completion_tokens s' = usage_completion_sum rs
  | None => False
  end /\
  (fun out => (prompt_tokens (snd out), completion_tokens (snd out)))
    <$> chat_all [(user_message scenario_prompt, 2);
                  (user_message scenario_prompt, 1)]
          (stub_state false healthy)
  = Some (24, 21).
Proof.
  split; [|vm_compute; reflexivity].
  destruct (chat_all [(user_message scenario_prompt, 2);
                      (user_message scenario_prompt, 1)]
              (stub_state false healthy)) as [[rs s']|] eqn:Hrun;
    [|revert Hrun; vm_compute; discriminate].
  destruct (usage_accounting _ _ _ _ Hrun) as (Hlen & _ & _ & _ & Hzero & _).
  destruct (Hzero eq_refl eq_refl) as (Hp & Hc).
  split; [exact Hlen|]. split; [exact Hp|exact Hc].
Defined.

(** C7 for a degraded result: the refusing transport leaves [query] with
    no response, the empty result is cached, and the second call returns
    it. *)
Lemma cached_query_idempotent_witness :
  cache (refused_state true) = true /\
  fst <$> query scenario_prompt 4 (refused_state true)
    = Some (inr (Many [])) /\
  match query scenario_prompt 4 (refused_state true) with
  | Some (inr r, s1) => query scenario_prompt 4 s1 = Some (inr r, s1)
  | _ => False
  end.
Proof.
  split; [reflexivity|]. split; [vm_compute; reflexivity|].
  destruct (query scenario_prompt 4 (refused_state true))
    as [[[e|r] s1]|] eqn:Hq;
    try (exfalso; revert Hq; vm_compute; discriminate).
  exact (proj1 (cached_query_idempotent scenario_prompt 4
                  (refused_state true) s1 r eq_refl Hq)).
Defined.

Lemma healthy_state_misses :
  cache_lookup scenario_prompt (stub_state true healthy) = None.
Proof. vm_compute. reflexivity. Qed.

(** C10 against the healthy stub: one response is asked for and cached;
    asking for five with the same prompt returns that single response. *)
Lemma cache_ignores_count_witness :
  cache (stub_state true healthy) = true /\
  1 <> 5 /\
  match query scenario_prompt 1 (stub_state true healthy) with
  | Some (inr r, s1) =>
      query scenario_prompt 5 s1 = Some (inr r, s1) /\
      exists c, r = Single c
  | _ => False
  end.
Proof.
  split; [reflexivity|]. split; [lia|].
  destruct (query scenario_prompt 1 (stub_state true healthy))
    as [[[e|r] s1]|] eqn:Hq;
    try (exfalso; revert Hq; vm_compute; discriminate).
  destruct (cache_ignores_count scenario_prompt 1 5
              (stub_state true healthy) s1 r eq_refl ltac:(lia) Hq)
    as (Hagain & _ & Hshape).
  split; [exact Hagain|].
  apply (proj1 (Hshape healthy_state_misses)). reflexivity.
Defined.

(** * Further properties *)

Section Frames.
Context {W : Type} `{Client W}.

(** A relation between the state before and the state after that every
    step of a method keeps is kept by the retries of [backoff]. *)
Lemma retry_keeps {A : Type} (R : State W -> State W -> Prop)
    (target : State W -> result A * State W) (limit_us start : Z) :
  (forall s, R s s) ->
  (forall a b c, R a b -> R b c -> R a c) ->
  (forall s w, R s (set_env w s)) ->
  (forall s res s', target s = (res, s') -> R s s') ->
  forall retries s res s',
    retry_exception retries limit_us start target s = (res, s') -> R s s'.
Proof.
  intros Hrefl Htrans Henv Htarget.
  induction retries as [|retries IH]; intros s res s'; cbn [retry_exception];
    destruct (target s) as [[e|r] s1] eqn:Hstep; apply Htarget in Hstep.
  - destruct (is_OpenAIError e); intros [= <- <-]; exact Hstep.
  - intros [= <- <-]. exact Hstep.
  - destruct (is_OpenAIError e); [|intros [= <- <-]; exact Hstep].
    destruct (limit_us <=? clock (env s) - start);
      [intros [= <- <-]; exact Hstep|].
    intros Hrec. apply IH in Hrec.
    eapply Htrans; [exact Hstep|]. eapply Htrans; [apply Henv|exact Hrec].
  - intros [= <- <-]. exact Hstep.
Qed.

(** The outcome of the retries is the outcome of one of the tries. *)
Lemma retry_outcome {A : Type} (Q : result A -> Prop)
    (target : State W -> result A * State W) (limit_us start : Z) :
  (forall s, Q (fst (target s))) ->
  forall retries s, Q (fst (retry_exception retries limit_us start target s)).
Proof.
  intros Htarget. induction retries as [|retries IH]; intros s;
    cbn [retry_exception]; specialize (Htarget s);
    destruct (target s) as [[e|r] s1]; cbn [fst] in *; try exact Htarget.
  - destruct (is_OpenAIError e); exact Htarget.
  - destruct (is_OpenAIError e); [|exact Htarget].
    destruct (limit_us <=? clock (env s) - start); [exact Htarget|apply IH].
Qed.

(** A relation that [chat] keeps on positive batch sizes, and that the
    log, the pauses and the cache write at [q] keep, is kept by
    [query q]. *)
Lemma query_keeps (R : State W -> State W -> Prop) (q : string) :
  (forall s, R s s) ->
  (forall a b c, R a b -> R b c -> R a c) ->
  (forall s w, R s (set_env w s)) ->
  (forall s l, R s (log l s)) ->
  (forall s r, R s (cache_update q r s)) ->
  (forall n s res s',
      0 < n -> chat (user_message q) n s = (res, s') -> R s s') ->
  forall n s out s', query q n s = Some (out, s') -> R s s'.
Proof.
  intros Hrefl Htrans Henv Hlog Hcache Hchat.
  assert (Hbody : forall ls s, R s (snd (loop_body q ls s))).
  { intros ls s. unfold loop_body, attempt.
    destruct (0 <? next_try ls) eqn:Hpos.
    - apply Z.ltb_lt in Hpos.
      destruct (chat (user_message q) (next_try ls) s) as [[e|r] s1] eqn:Hc;
        apply (Hchat _ _ _ _ Hpos) in Hc; cbn [snd]; [|exact Hc].
      eapply Htrans; [exact Hc|]. eapply Htrans; [apply Hlog|apply Henv].
    - cbn [snd]. eapply Htrans; [apply Hlog|apply Henv]. }
  assert (Hloop : forall fuel ls s ls' s',
             while_loop fuel q ls s = Some (ls', s') -> R s s').
  { induction fuel as [|fuel IH]; intros ls s ls' s'; cbn [while_loop];
      destruct (loop_cond ls); try discriminate;
      try (intros [= <- <-]; apply Hrefl).
    specialize (Hbody ls s). destruct (loop_body q ls s) as [ls1 s1].
    intros Hrun. eapply Htrans; [exact Hbody|]. eapply IH. exact Hrun. }
  intros n s out s'. unfold query.
  destruct (cache_lookup q s); [intros [= <- <-]; apply Hrefl|].
  destruct (n =? 1) eqn:Hone.
  - apply Z.eqb_eq in Hone.
    destruct (chat (user_message q) n s) as [[e|r] s1] eqn:Hc;
      apply (Hchat n s _ _ ltac:(lia)) in Hc; intros [= <- <-];
      [exact Hc|].
    eapply Htrans; [exact Hc|apply Hcache].
  - destruct (while_loop _ q (loop_init n) s) as [[ls s1]|] eqn:Hrun;
      [|discriminate].
    intros [= <- <-]. apply Hloop in Hrun.
    eapply Htrans; [exact Hrun|apply Hcache].
Qed.

End Frames.

Section ClientExtras.
Context {W : Type} `{Client W}.

Lemma cache_frame_refl (q : string) (s : State W) : cache_frame q s s.
Proof. unfold cache_frame. auto. Qed.

Lemma cache_frame_trans (q : string) (a b c : State W) :
  cache_frame q a b -> cache_frame q b c -> cache_frame q a c.
Proof.
  intros (Hc1 & Hf1 & Hoff1 & Hk1) (Hc2 & Hf2 & Hoff2 & Hk2).
  unfold cache_frame. split; [congruence|]. split; [congruence|]. split.
  - intros Hoff. rewrite Hoff2, Hoff1; [reflexivity|exact Hoff|congruence].
  - intros q' Hne. rewrite Hk2, Hk1; [reflexivity|exact Hne|exact Hne].
Qed.

Lemma cache_frame_settings (q : string) (s s' : State W) :
  same_settings s s' -> cache_frame q s s'.
Proof.
  intros (Hc & Hf & Hrc). unfold cache_frame. rewrite Hrc. auto.
Qed.

Lemma cache_frame_update (q : string) (r : QueryResponse) (s : State W) :
  cache_frame q s (cache_update q r s).
Proof.
  unfold cache_frame, cache_update.
  destruct (cache s) eqn:Hc; cbn; rewrite ?Hc; repeat split; auto;
    try discriminate.
  intros q' Hne. apply lookup_insert_ne. congruence.
Qed.

(** X1: [query q] never changes the configuration or the cache switch; it
    leaves the cache entries of all other prompts as they were; with the
    cache switched off it leaves the whole cache as it was; and a call
    that raises writes nothing to the cache. *)
Theorem query_cache_frame (q : string) (n : Z) (s s' : State W)
    (out : result QueryResponse) :
  query q n s = Some (out, s') ->
  cache_frame q s s' /\
  (is_ok out = false -> response_cache s' = response_cache s).
Proof.
  intros Hq. split.
  - revert Hq. apply (query_keeps (cache_frame q) q).
    + apply cache_frame_refl.
    + apply cache_frame_trans.
    + intros s0 w. apply cache_frame_settings. unfold same_settings. auto.
    + intros s0 l. apply cache_frame_settings. unfold same_settings. auto.
    + intros s0 r. apply cache_frame_update.
    + intros n0 s0 res s1 _ Hchat.
      apply chat_spec in Hchat as (k & _ & Hset & _).
      apply cache_frame_settings. exact Hset.
  - revert Hq. unfold query.
    destruct (cache_lookup q s); [intros [= <- <-]; discriminate|].
    destruct (n =? 1).
    + destruct (chat (user_message q) n s) as [[e|r] s1] eqn:Hchat;
        intros [= <- <-]; [|discriminate].
      intros _. apply chat_spec in Hchat as (k & _ & (_ & _ & Hrc) & _).
      exact Hrc.
    + destruct (while_loop _ q (loop_init n) s) as [[ls s1]|];
        [intros [= <- <-]; discriminate|discriminate].
Qed.

Lemma tokens_le_refl (s : State W) : tokens_le s s.
Proof. unfold tokens_le. lia. Qed.

Lemma tokens_le_trans (a b c : State W) :
  tokens_le a b -> tokens_le b c -> tokens_le a c.
Proof. unfold tokens_le. lia. Qed.

Lemma chat_body_tokens_le (messages : list Message) (n : Z) (s s' : State W)
    (res : result ChatCompletion) :
  nonneg_usage_transport -> 0 < n ->
  chat_body messages n s = (res, s') -> tokens_le s s'.
Proof.
  intros Hnonneg Hn. unfold chat_body.
  destruct (create (chat_request s messages n) (env s)) as [[e|r] w] eqn:Hc.
  - intros [= <- <-]. unfold tokens_le. cbn. lia.
  - apply Hnonneg in Hc; [|exact Hn].
    unfold update_usage, usage_nonneg in *.
    destruct (usage r) as [u|].
    + destruct Hc as (Hp & Hcmp).
      match goal with
      | |- context [float_of_int (prompt_tokens ?x)] =>
          destruct (float_of_int (prompt_tokens x));
          [destruct (float_of_int (completion_tokens x))|]
      end; intros [= <- <-]; unfold tokens_le; cbn; lia.
    + intros [= <- <-]. unfold tokens_le. cbn. lia.
Qed.

(** X2: when the transport never reports a negative token count, no call
    of [query], whatever its outcome, lowers [prompt_tokens] or
    [completion_tokens]. *)
Theorem usage_never_decreases (q : string) (n : Z) (s s' : State W)
    (out : result QueryResponse) :
  nonneg_usage_transport ->
  query q n s = Some (out, s') ->
  prompt_tokens s <= prompt_tokens s' /\
  completion_tokens s <= completion_tokens s'.
Proof.
  intros Hnonneg. apply (query_keeps tokens_le q).
  - apply tokens_le_refl.
  - apply tokens_le_trans.
  - intros s0 w. unfold tokens_le. cbn. lia.
  - intros s0 l. unfold tokens_le. cbn. lia.
  - intros s0 r. unfold tokens_le, cache_update.
    destruct (cache s0); cbn; lia.
  - intros n0 s0 res s1 Hn. unfold chat.
    apply (retry_keeps tokens_le).
    + apply tokens_le_refl.
    + apply tokens_le_trans.
    + intros s2 w. unfold tokens_le. cbn. lia.
    + intros s2 res2 s3. apply chat_body_tokens_le; assumption.
Qed.

Lemma while_loop_exit (q : string) (fuel : nat) (ls : Loop) (s : State W) :
  loop_cond ls = false -> while_loop fuel q ls s = Some (ls, s).
Proof. intros Hc. destruct fuel; cbn [while_loop]; rewrite Hc; reflexivity. Qed.

(** X3: when more than one response is asked for and the first attempt is
    served, [query] is done after that one [chat] call: it returns the one
    response (and caches it), with no failed attempt. *)
Theorem first_attempt_suffices (q : string) (n : Z) (s s1 : State W)
    (r : ChatCompletion) :
  1 < n ->
  cache_lookup q s = None ->
  chat (user_message q) n s = (inr r, s1) ->
  query q n s = Some (inr (Many [r]), cache_update q (Many [r]) s1) /\
  failed_attempts (logger (cache_update q (Many [r]) s1))
    = failed_attempts (logger s).
Proof.
  intros Hn Hmiss Hchat. split.
  - unfold query. rewrite Hmiss.
    destruct (n =? 1) eqn:Hone; [apply Z.eqb_eq in Hone; lia|].
    assert (Hfuel : exists k, loop_fuel (loop_init n) = S k).
    { unfold loop_fuel, loop_init. cbn.
      exists (Z.to_nat n + Z.to_nat n - 1)%nat. lia. }
    destruct Hfuel as (k & ->). cbn [while_loop].
    assert (Hcond : loop_cond (loop_init n) = true)
      by (apply loop_cond_true; cbn; lia).
    rewrite Hcond. unfold loop_body, attempt. cbn [next_try loop_init].
    destruct (0 <? n) eqn:Hpos; [|apply Z.ltb_ge in Hpos; lia].
    rewrite Hchat. rewrite while_loop_exit.
    + reflexivity.
    + apply loop_cond_false. cbn. lia.
  - apply chat_spec in Hchat as (k & _ & _ & _ & Hlog & _).
    unfold cache_update. destruct (cache s1); cbn [logger cache_store];
      rewrite Hlog, failed_attempts_snoc; cbn; lia.
Qed.

(** X4: asked for zero or a negative number of responses, [query] returns
    the empty sequence without calling the transport or logging; with the
    cache on it stores that empty result, which every later call for the
    prompt then returns, whatever count it asks for. *)
Theorem nonpositive_count_returns_nothing (q : string) (n : Z)
    (s : State W) :
  n <= 0 ->
  cache_lookup q s = None ->
  query q n s = Some (inr (Many []), cache_update q (Many []) s) /\
  calls (cache_update q (Many []) s) = calls s /\
  logger (cache_update q (Many []) s) = logger s /\
  (cache s = true ->
   forall m, query q m (cache_update q (Many []) s)
             = Some (inr (Many []), cache_update q (Many []) s)).
Proof.
  intros Hn Hmiss.
  assert (Hq : query q n s
               = Some (inr (Many []), cache_update q (Many []) s)).
  { unfold query. rewrite Hmiss.
    destruct (n =? 1) eqn:Hone; [apply Z.eqb_eq in Hone; lia|].
    rewrite while_loop_exit; [reflexivity|].
    apply loop_cond_false. cbn. lia. }
  split; [exact Hq|].
  split; [unfold cache_update; destruct (cache s); reflexivity|].
  split; [unfold cache_update; destruct (cache s); reflexivity|].
  intros Hc m. apply query_hit. apply cache_lookup_update. exact Hc.
Qed.

End ClientExtras.

Section CountingExtras.
Context {W : Type} `{Client W}.

Lemma total_choices_snoc (rs : list ChatCompletion) (r : ChatCompletion) :
  total_choices (rs ++ [r]) = (total_choices rs + length (choices r))%nat.
Proof.
  induction rs as [|r0 rs IH]; cbn [app].
  - rewrite !total_choices_cons. cbn. lia.
  - rewrite !total_choices_cons, IH. lia.
Qed.

(** A response [chat] returns is one the transport gave to a request for
    the batch size [chat] was called with. *)
Lemma chat_returns_created (messages : list Message) (n : Z) (s s' : State W)
    (r : ChatCompletion) :
  chat messages n s = (inr r, s') ->
  exists req w w', req_n req = n /\ create req w = (inr r, w').
Proof.
  intros Hchat.
  pose proof (retry_outcome
                (fun res => match res with
                            | inr r => exists req w w',
                                req_n req = n /\ create req w = (inr r, w')
                            | inl _ => True
                            end)
                (chat_body messages n) max_time (clock (env s))) as Hout.
  specialize (Hout ltac:(
    intros s0; unfold chat_body;
    destruct (create (chat_request s0 messages n) (env s0))
      as [[e|r0] w] eqn:Hc; cbn [fst]; [exact I|];
    destruct (update_usage r0 _) as [[e|[]] s2]; cbn [fst]; [exact I|];
    exists (chat_request s0 messages n), (env s0), w; auto)
    (Nat.pred max_tries) s).
  unfold chat in Hchat. rewrite Hchat in Hout. exact Hout.
Qed.

Lemma reaches_exact (q : string) (count : Z) (x y : Loop * State W) :
  exact_transport ->
  loop_reaches q x y ->
  Z.of_nat (total_choices (response (fst x))) + num_responses (fst x) = count ->
  Z.of_nat (total_choices (response (fst y))) + num_responses (fst y) = count.
Proof.
  intros Hexact. induction 1 as [x|ls s y Hcond _ IH]; [auto|].
  intros Hsum. apply IH. clear IH. cbn [fst] in *.
  unfold loop_body. destruct (attempt q ls s) as [[e|r] s1] eqn:Hatt;
    cbn [fst response num_responses]; [exact Hsum|].
  unfold attempt in Hatt. destruct (0 <? next_try ls) eqn:Hpos;
    [|discriminate Hatt].
  apply Z.ltb_lt in Hpos.
  apply chat_returns_created in Hatt as (req & w & w' & Hn & Hcreate).
  apply Hexact in Hcreate; [|lia].
  rewrite total_choices_snoc. lia.
Qed.

(** X5: against a transport that serves a request for [n] choices with
    exactly [n] choices, a call of [query] for more than one response
    returns exactly as many choices as asked for, unless it has used up
    its attempt budget ([n] failed attempts logged), in which case it
    returns fewer; [get_response_texts] yields one text per choice. *)
Theorem exact_transport_choice_count (q : string) (n : Z) (s s' : State W)
    (rs : list ChatCompletion) :
  exact_transport ->
  1 < n ->
  cache_lookup q s = None ->
  query q n s = Some (inr (Many rs), s') ->
  length (get_response_texts (Many rs)) = total_choices rs /\
  (Z.of_nat (total_choices rs) = n \/
   (Z.of_nat (total_choices rs) < n /\
    Z.of_nat (failed_attempts (logger s'))
      = Z.of_nat (failed_attempts (logger s)) + n)).
Proof.
  intros Hexact Hn Hmiss Hq. split; [apply flat_texts_length|].
  destruct (loop_runs_to_exit q n s ltac:(lia))
    as (ls' & s1 & Hrun & Hreach & Hexit & Hinv).
  revert Hq. unfold query. rewrite Hmiss.
  destruct (n =? 1) eqn:Hone; [apply Z.eqb_eq in Hone; lia|].
  rewrite Hrun. intros [= <- <-].
  apply (reaches_exact q n _ _ Hexact) in Hreach; [|cbn; lia].
  cbn [fst] in Hreach.
  apply loop_cond_false in Hexit.
  destruct Hinv as (Hnum & Ht & _ & _ & _ & Hfail & _).
  assert (Hlog : logger (cache_update q (Many (response ls')) s1) = logger s1)
    by (unfold cache_update; destruct (cache s1); reflexivity).
  rewrite Hlog.
  destruct (Z.eq_dec (num_responses ls') 0) as [Hzero|Hleft];
    [left; lia|right; split; lia].
Qed.




End CountingExtras.

Section RetryExtras.
Context {W : Type} `{Client W}.





End RetryExtras.


Section Analysis.





End Analysis.

Section Histogram.








End Histogram.

(** ** The further properties at concrete runs *)

Lemma stub_exact : exact_transport (W := Stub).
Proof.
  intros req w w' r Hn. cbn. unfold stub_create.
  destruct (limit w <? req_n req); [discriminate|].
  intros [= <- _]. cbn. rewrite repeat_length. lia.
Qed.

Lemma stub_nonneg_usage : nonneg_usage_transport (W := Stub).
Proof.
  intros req w w' r Hn. cbn. unfold stub_create.
  destruct (limit w <? req_n req); [discriminate|].
  intros [= <- _]. unfold usage_nonneg. cbn.
  destruct (reports_usage w); cbn; [lia|exact I].
Qed.


(** The cache frame for a call that caches under the scenario's prompt:
    the entry of another prompt is as before (here absent). *)
Lemma query_cache_frame_witness :
  match query scenario_prompt 5 (stub_state true (flaky true true)) with
  | Some (out, s') =>
      config s' = stub_config /\ cache s' = true /\
      response_cache s' !! "another prompt" = None
  | None => False
  end.
Proof.
  destruct (query scenario_prompt 5 (stub_state true (flaky true true)))
    as [[out s']|] eqn:Hq;
    [|exfalso; revert Hq; vm_compute; discriminate].
  destruct (query_cache_frame _ _ _ _ _ Hq) as ((Hc & Hf & _ & Hk) & _).
  split; [exact Hc|]. split; [exact Hf|].
  rewrite Hk; [vm_compute; reflexivity|].
  vm_compute. discriminate.
Defined.

(** The counters after the scenario are not below the initial zeros. *)
Lemma usage_never_decreases_witness :
  match query scenario_prompt 5 (stub_state true (flaky true true)) with
  | Some (out, s') => 0 <= prompt_tokens s' /\ 0 <= completion_tokens s'
  | None => False
  end.
Proof.
  destruct (query scenario_prompt 5 (stub_state true (flaky true true)))
    as [[out s']|] eqn:Hq;
    [|exfalso; revert Hq; vm_compute; discriminate].
  exact (usage_never_decreases _ _ _ _ _ stub_nonneg_usage Hq).
Defined.

Lemma healthy_first_attempt :
  chat (user_message scenario_prompt) 3 (stub_state true healthy)
  = (inr (stub_completion healthy 3),
     snd (chat (user_message scenario_prompt) 3 (stub_state true healthy))).
Proof. vm_compute. reflexivity. Qed.

(** Three responses asked of the healthy stub: one call, one response. *)
Lemma first_attempt_suffices_witness :
  1 < 3 /\
  query scenario_prompt 3 (stub_state true healthy)
  = Some (inr (Many [stub_completion healthy 3]),
          cache_update scenario_prompt (Many [stub_completion healthy 3])
            (snd (chat (user_message scenario_prompt) 3
                    (stub_state true healthy)))).
Proof.
  split; [lia|].
  exact (proj1 (first_attempt_suffices scenario_prompt 3 _ _ _
                  ltac:(lia) healthy_state_misses healthy_first_attempt)).
Defined.

(** Zero responses asked of the healthy stub. *)
Lemma nonpositive_count_witness :
  0 <= 0 /\
  query scenario_prompt 0 (stub_state true healthy)
  = Some (inr (Many []),
          cache_update scenario_prompt (Many []) (stub_state true healthy)) /\
  query scenario_prompt 5
    (cache_update scenario_prompt (Many []) (stub_state true healthy))
  = Some (inr (Many []),
          cache_update scenario_prompt (Many []) (stub_state true healthy)).
Proof.
  destruct (nonpositive_count_returns_nothing scenario_prompt 0
              (stub_state true healthy) ltac:(lia) healthy_state_misses)
    as (Hq & _ & _ & Hlater).
  split; [lia|]. split; [exact Hq|]. apply Hlater. reflexivity.
Defined.

Lemma flaky_state_misses :
  cache_lookup scenario_prompt (stub_state true (flaky true true)) = None.
Proof. vm_compute. reflexivity. Qed.

(** The scenario returns exactly the five choices asked for, or has 5
    failed attempts more in its log. *)
Lemma exact_transport_choice_count_witness :
  1 < 5 /\
  match query scenario_prompt 5 (stub_state true (flaky true true)) with
  | Some (inr (Many rs), s') =>
      Z.of_nat (total_choices rs) = 5 \/
      (Z.of_nat (total_choices rs) < 5 /\
       Z.of_nat (failed_attempts (logger s'))
       = Z.of_nat (failed_attempts
                     (logger (stub_state true (flaky true true)))) + 5)
  | _ => False
  end.
Proof.
  split; [lia|].
  destruct (query scenario_prompt 5 (stub_state true (flaky true true)))
    as [[[e|[r|rs]] s']|] eqn:Hq;
    try (exfalso; revert Hq; vm_compute; discriminate).
  exact (proj2 (exact_transport_choice_count scenario_prompt 5 _ _ _ stub_exact
                  ltac:(lia) flaky_state_misses Hq)).
Defined.


